(** * image-router: the release classifier, the catalog and the redirect handler

    A shallow embedding of [image_router.py].  Python dictionaries are
    finite maps ([gmap]), strings are [string] (sequences of 8-bit code
    points), the [Release] objects created during a refresh live in an
    explicit object store so that two catalog keys can hold the same
    reference, and exceptions are the [Raise] results of a small error
    monad. *)

From Stdlib Require Import Ascii NArith ZArith.
From Stdlib Require String.
From stdpp Require Import gmap strings list fin_maps.

(** ** Characters and strings *)

Module Str.

(** [str.startswith(prefix)] *)
Fixpoint startswith (s prefix : string) : bool :=
  match prefix, s with
  | EmptyString, _ => true
  | String p prefix', String c s' =>
      if decide (p = c) then startswith s' prefix' else false
  | String _ _, EmptyString => false
  end.

(** [str.startswith(prefixes)] with a tuple of prefixes *)
Definition startswith_any (s : string) (prefixes : list string) : bool :=
  existsb (startswith s) prefixes.

(** [sub in s] *)
Fixpoint contains (sub s : string) : bool :=
  startswith s sub ||
  match s with
  | EmptyString => false
  | String _ s' => contains sub s'
  end.

(** The text after a literal prefix, if [s] starts with it. *)
Fixpoint strip_prefix (prefix s : string) : option string :=
  match prefix, s with
  | EmptyString, _ => Some s
  | String p prefix', String c s' =>
      if decide (p = c) then strip_prefix prefix' s' else None
  | String _ _, EmptyString => None
  end.

Definition code (c : ascii) : N := N_of_ascii c.

Definition between (lo hi c : ascii) : bool :=
  ((code lo <=? code c) && (code c <=? code hi))%N.

(** [str.lower()] on one code point below 256: the letters [A-Z] and the
    upper-case letters of the Latin-1 block (U+00C0 to U+00DE, the
    multiplication sign U+00D7 apart) move up by 32. *)
Definition lower_char (c : ascii) : ascii :=
  if between "A" "Z" c
     || (between "192" "222" c && negb (bool_decide (c = "215"%char)))
  then ascii_of_N (code c + 32)
  else c.

Fixpoint lower (s : string) : string :=
  match s with
  | EmptyString => EmptyString
  | String c s' => String (lower_char c) (lower s')
  end.

(** [s.split(sep)] for a one-character separator; [cur] is the segment
    being read. *)
Fixpoint split_from (sep : ascii) (cur s : string) : list string :=
  match s with
  | EmptyString => [cur]
  | String c s' =>
      if decide (c = sep) then cur :: split_from sep EmptyString s'
      else split_from sep (cur +:+ String c EmptyString) s'
  end.

Definition split (sep : ascii) (s : string) : list string :=
  split_from sep EmptyString s.

Fixpoint all_chars (p : ascii → bool) (s : string) : bool :=
  match s with
  | EmptyString => true
  | String c s' => p c && all_chars p s'
  end.

End Str.

(** ** Regular expressions

    The patterns of the program are sequences of literals, the wildcard
    [.], and one-or-more repetitions of a character set, some of them
    named groups.  [re_match] is [Pattern.match]: anchored at the start of
    the string, free at its end, greedy with backtracking. *)

Module Re.

Inductive set_item :=
  | Chr (c : ascii)
  | Range (lo hi : ascii).

Definition in_item (c : ascii) (i : set_item) : bool :=
  match i with
  | Chr c' => bool_decide (c = c')
  | Range lo hi => Str.between lo hi c
  end.

Definition in_set (cs : list set_item) (c : ascii) : bool :=
  existsb (in_item c) cs.

Inductive node :=
  | Literal (s : string)
  | AnyChar
  | Repeat (cs : list set_item)
  | NamedRepeat (name : string) (cs : list set_item).

Definition regex := list node.

(** [[cs]+] followed by the continuation [k]: the longest run is tried
    first, and a shorter one when the rest does not match after it. *)
Fixpoint greedy {R} (cs : list set_item) (s : string)
    (k : string → string → option R) : option R :=
  match s with
  | EmptyString => None
  | String c s' =>
      if in_set cs c then
        match greedy cs s' (λ m rest, k (String c m) rest) with
        | Some r => Some r
        | None => k (String c EmptyString) s'
        end
      else None
  end.

Definition newline : ascii := "010"%char.

Fixpoint match_nodes (r : regex) (s : string) (groups : gmap string string)
    : option (gmap string string) :=
  match r with
  | [] => Some groups
  | Literal l :: r' =>
      match Str.strip_prefix l s with
      | Some s' => match_nodes r' s' groups
      | None => None
      end
  | AnyChar :: r' =>
      match s with
      | String c s' =>
          if decide (c = newline) then None else match_nodes r' s' groups
      | EmptyString => None
      end
  | Repeat cs :: r' =>
      greedy cs s (λ _ rest, match_nodes r' rest groups)
  | NamedRepeat name cs :: r' =>
      greedy cs s (λ m rest, match_nodes r' rest (<[name := m]> groups))
  end.

(** [regex.match(s)], with the result's [groupdict()] *)
Definition re_match (r : regex) (s : string) : option (gmap string string) :=
  match_nodes r s ∅.

(** The strings a pattern accepts, stated without the search order. *)
Fixpoint accepts (r : regex) (s : string) : Prop :=
  match r with
  | [] => True
  | Literal l :: r' => ∃ s', s = l +:+ s' ∧ accepts r' s'
  | AnyChar :: r' => ∃ c s', s = String c s' ∧ c ≠ newline ∧ accepts r' s'
  | Repeat cs :: r' | NamedRepeat _ cs :: r' =>
      ∃ m s', s = m +:+ s' ∧ m ≠ EmptyString
              ∧ Str.all_chars (in_set cs) m = true ∧ accepts r' s'
  end.

(** The names of the groups of a pattern: the keys of every [groupdict()]. *)
Fixpoint group_names (r : regex) : list string :=
  match r with
  | [] => []
  | NamedRepeat name _ :: r' => name :: group_names r'
  | _ :: r' => group_names r'
  end.

End Re.

Import Re.

(** ** Constants of the program *)

Definition alnum : list set_item := [Range "A" "Z"; Range "a" "z"; Range "0" "9"].
Definition lower_alnum : list set_item := [Range "a" "z"; Range "0" "9"].
Definition digits : list set_item := [Range "0" "9"].
Definition model_chars : list set_item :=
  [Range "a" "z"; Range "0" "9"; Range "A" "Z"; Chr "-"; Chr "."; Chr "_"].

Definition DROIDIAN_ROOTFS : regex :=
  [Literal "droidian-rootfs-"; Repeat alnum; Literal "-";
   NamedRepeat "architecture" lower_alnum; Literal "_";
   NamedRepeat "date" digits; AnyChar; Literal "zip"].

Definition DROIDIAN_ADAPTATION : regex :=
  [Literal "droidian-adaptation-"; NamedRepeat "vendor" alnum; Literal "-";
   NamedRepeat "model" model_chars; Literal "-";
   NamedRepeat "architecture" lower_alnum; Literal "_";
   NamedRepeat "date" digits; AnyChar; Literal "zip"].

Definition DROIDIAN_FEATURE : regex :=
  [Literal "droidian-"; NamedRepeat "feature" alnum; Literal "-";
   NamedRepeat "architecture" lower_alnum; Literal "_";
   NamedRepeat "date" digits; AnyChar; Literal "zip"].

(** [not_allowed_regex]: the one-character set [[^a-z0-9_]] *)
Definition not_allowed (c : ascii) : bool :=
  negb (in_set [Range "a" "z"; Range "0" "9"; Chr "_"] c).

(** [not_allowed_regex.sub("-", s)]: every maximal run of characters of
    the set becomes one dash; [in_run] says that the previous character
    was one of the run already replaced. *)
Fixpoint sub_not_allowed (in_run : bool) (s : string) : string :=
  match s with
  | EmptyString => EmptyString
  | String c s' =>
      if not_allowed c then
        if in_run then sub_not_allowed true s'
        else String "-" (sub_not_allowed true s')
      else String c (sub_not_allowed false s')
  end.

Definition slugify (s : string) : string :=
  sub_not_allowed false (Str.lower s).


Definition GITHUB_PATTERN (repository : string) : string :=
  "https://api.github.com/repos/" +:+ repository +:+ "/releases".

(** The configuration the program ships with. *)
Module Deployed.
Definition IMAGES_REPOSITORIES : list string :=
  ["droidian-images/rootfs-api28gsi-all"].
End Deployed.

(** ** Data of the release API

    The decoded JSON of one release and of one asset, with the keys the
    program reads. *)

Record asset := Asset {
  name : string;
  browser_download_url : string
}.

Record release_contents := ReleaseContents {
  tag_name : string;
  assets : list asset
}.

(** A [Release] object is a dictionary
    architecture → vendor → target → download URL. *)
Abbreviation Release := (gmap string (gmap string (gmap string string))).

(** [d.setdefault(k, v)]: the value bound to [k] afterwards, and the
    dictionary afterwards. *)
Definition setdefault {V} (k : string) (v : V) (d : gmap string V)
    : V * gmap string V :=
  match d !! k with
  | Some x => (x, d)
  | None => (v, <[k := v]> d)
  end.

(** ** Exceptions and HTTP *)

Inductive exn :=
  | ClientError        (* raised by [session.get]: no response *)
  | AttributeError     (* [None.split] *)
  | JSONError          (* raised by [response.json()] *)
  | KeyError
  | ValueError         (* [HTTPFound] without a location *)
  | InvalidReference.  (* a reference that designates no object *)

Inductive result (A : Type) :=
  | Ok (a : A)
  | Raise (e : exn).
Arguments Ok {A} a.
Arguments Raise {A} e.

(** An exception passes through the rest of the computation. *)
Global Instance result_bind : MBind result := λ A B k r,
  match r with
  | Ok a => k a
  | Raise e => Raise e
  end.

(** What the program reads of a response: its status, its Content-Type
    header if it has one, and the value of [response.json()], which is
    [None] when decoding raises.  The decoded value is taken to be what
    the release API sends, a list of releases with the keys above; a body
    that decodes to something else is not represented. *)
Record response := Response {
  status : Z;
  content_type : option string;
  json : option (list release_contents)
}.

(** [session.get(url)] either raises or gives a response. *)
Inductive fetched :=
  | NoResponse
  | Got (r : response).

(** The mapping under construction or published: the [Release] objects
    created so far, in creation order, and the dictionary
    repository → release name → reference to a [Release] object.  The
    repository dictionaries are reached from one place only and are kept
    by value; the [Release] objects are kept by reference. *)
Record Mapping := MkMapping {
  objects : list Release;
  entries : gmap string (gmap string nat)
}.

(** [self.mapping = {}] *)
Definition empty_mapping : Mapping := MkMapping [] ∅.

Record match_info := MatchInfo {
  repository : string;
  version : string;
  architecture : string;
  vendor : string;
  file : string
}.

Inductive outcome :=
  | HTTPFound (location : string)
  | HTTPNotFound
  | Unhandled (e : exn).

(** [web.HTTPFound(location=...)]: a redirect needs a location. *)
Definition redirect (location : string) : outcome :=
  if decide (location = EmptyString) then Unhandled ValueError
  else HTTPFound location.

(** ** ImageRouter.request_handler *)
Definition request_handler (mapping : Mapping) (i : match_info) : outcome :=
  match entries mapping !! repository i with
  | None => HTTPNotFound
  | Some repo_dict =>
  match repo_dict !! version i with
  | None => HTTPNotFound
  | Some ref =>
  match objects mapping !! ref with
  | None => Unhandled InvalidReference
  | Some rel =>
  match rel !! architecture i with
  | None => HTTPNotFound
  | Some arch_dict =>
  match arch_dict !! vendor i with
  | None => HTTPNotFound
  | Some vendor_dict =>
  match vendor_dict !! file i with
  | None => HTTPNotFound
  | Some redirect_url => redirect redirect_url
  end end end end end end.

(** ** Concrete inputs

    Assets, releases and responses on which the program is run below. *)

Module Run.

Definition REPOSITORY : string := "droidian-images/rootfs-api28gsi-all".
Definition SHORT : string := "rootfs-api28gsi-all".

Definition rootfs_asset : asset :=
  Asset "droidian-rootfs-api28gsi-arm64_20210101.zip"
        "https://github.com/droidian-images/rootfs-api28gsi-all/releases/download/s/rootfs.zip".

Definition adaptation_asset : asset :=
  Asset "droidian-adaptation-fxtec-pro1-arm64_20210101.zip"
        "https://github.com/droidian-images/rootfs-api28gsi-all/releases/download/s/pro1.zip".

Definition untrusted_asset : asset :=
  Asset "droidian-devtools-armhf_20210101.zip" "https://example.org/devtools.zip".

Definition readme_asset : asset :=
  Asset "README.md"
        "https://github.com/droidian-images/rootfs-api28gsi-all/releases/download/s/README.md".

Definition older_rootfs_asset : asset :=
  Asset "droidian-rootfs-api28gsi-arm64_20201231.zip"
        "https://github.com/droidian-images/rootfs-api28gsi-all/releases/download/s/older.zip".

Definition json_response (content : list release_contents) : response :=
  Response 200 (Some "application/json; charset=utf-8") (Some content).

Definition error_response : response := Response 500 (Some "text/html") None.

Definition html_response : response :=
  Response 200 (Some "text/html; charset=utf-8") None.

Definition headerless_response : response := Response 200 None (Some []).

Definition answer (resp : response) : string → fetched := λ _, Got resp.

Definition no_answer : string → fetched := λ _, NoResponse.

(** Slugs [nightly-2; stable-1; nightly-3], each release with a trusted
    rootfs. *)
Definition three_releases : list release_contents :=
  [ReleaseContents "nightly-2" [rootfs_asset];
   ReleaseContents "stable-1" [rootfs_asset; adaptation_asset];
   ReleaseContents "nightly-3" [rootfs_asset]].

Definition nightly_releases : list release_contents :=
  [ReleaseContents "nightly-1" [rootfs_asset];
   ReleaseContents "nightly-2" [rootfs_asset]].

(** The first release that is not a nightly has no asset that matches. *)
Definition empty_first : list release_contents :=
  [ReleaseContents "stable-2" [readme_asset];
   ReleaseContents "stable-1" [rootfs_asset]].

(** A release all of whose matching assets are untrusted. *)
Definition untrusted_release : release_contents :=
  ReleaseContents "Test Build" [untrusted_asset; readme_asset].

(** A release whose own slug is the alias name, after a stable one. *)
Definition alias_named : list release_contents :=
  [ReleaseContents "stable-1" [rootfs_asset];
   ReleaseContents "droidian-stable-latest" [adaptation_asset]].

End Run.

Section Router.

Variable IMAGES_REPOSITORIES : list string.

Definition ALLOWED_PREFIXES : list string :=
  map (λ repository, "https://github.com/" +:+ repository +:+ "/")
      IMAGES_REPOSITORIES.

(** ** Release.__init__ *)

Definition target_of (gdict : gmap string string) : string :=
  match gdict !! "model" with
  | Some model => "adaptation-" +:+ model +:+ ".zip"
  | None =>
      match gdict !! "feature" with
      | Some feature => "feature-" +:+ feature +:+ ".zip"
      | None => "rootfs.zip"
      end
  end.

(** The body of the inner loop once [regex.match] has succeeded.  The
    dictionaries returned by [setdefault] are the ones stored in [self];
    writing the updated ones back is the in-place update. *)
Definition store_match (a : asset) (self : Release)
    (gdict : gmap string string) : Release :=
  let arch := gdict !!! "architecture" in
  let vend := default "generic" (gdict !! "vendor") in
  let '(arch_dict, self) := setdefault arch ∅ self in
  let '(vendor_dict, arch_dict) := setdefault vend ∅ arch_dict in
  let _target := target_of gdict in
  let vendor_dict :=
    if Str.startswith_any (browser_download_url a) ALLOWED_PREFIXES
    then <[_target := browser_download_url a]> vendor_dict
    else vendor_dict in
  <[arch := <[vend := vendor_dict]> arch_dict]> self.

Definition try_regex (a : asset) (self : Release) (regex : regex) : Release :=
  match re_match regex (name a) with
  | None => self
  | Some gdict => store_match a self gdict
  end.

Definition PATTERNS : list regex :=
  [DROIDIAN_ROOTFS; DROIDIAN_ADAPTATION; DROIDIAN_FEATURE].

(** One asset: every pattern of the list is tried, in order. *)
Definition classify_asset (self : Release) (a : asset) : Release :=
  fold_left (try_regex a) PATTERNS self.

Definition Release_init (rc : release_contents) : Release :=
  fold_left classify_asset (assets rc) ∅.

(** First match wins, as the specification words it: the patterns are
    tried in order and the first one that matches classifies the asset. *)
Fixpoint first_match (patterns : list regex) (filename : string)
    : option (gmap string string) :=
  match patterns with
  | [] => None
  | regex :: patterns' =>
      match re_match regex filename with
      | Some gdict => Some gdict
      | None => first_match patterns' filename
      end
  end.

Definition classify_asset_first_match (self : Release) (a : asset) : Release :=
  match first_match PATTERNS (name a) with
  | Some gdict => store_match a self gdict
  | None => self
  end.

Definition Release_first_match (rc : release_contents) : Release :=
  fold_left classify_asset_first_match (assets rc) ∅.

(** ** ImageRouter.create_map *)

Definition STABLE_LATEST : string := "droidian-stable-latest".

(** [repository.split("/")[-1]] *)
Definition short_name (repository : string) : string :=
  List.last (Str.split "/" repository) EmptyString.

(** The state of the loop over the releases of one repository: the
    objects created so far, [repo_dict] and [latest_stable]. *)
Definition releases_state : Type :=
  list Release * gmap string nat * option string.

Definition add_release (st : releases_state) (rc : release_contents)
    : releases_state :=
  let '(objs, repo_dict, latest_stable) := st in
  let release_name := slugify (tag_name rc) in
  let rel := Release_init rc in
  let ref := length objs in
  let objs := objs ++ [rel] in
  if decide (rel = ∅) then (objs, repo_dict, latest_stable)
  else
    (objs, <[release_name := ref]> repo_dict,
     match latest_stable with
     | None =>
         if Str.contains "nightly" release_name then None
         else Some release_name
     | Some _ => latest_stable
     end).

(** [repo_dict["droidian-stable-latest"] = repo_dict[latest_stable]] *)
Definition add_alias (repo_dict : gmap string nat)
    (latest_stable : option string) : result (gmap string nat) :=
  match latest_stable with
  | None => Ok repo_dict
  | Some slug =>
      match repo_dict !! slug with
      | Some ref => Ok (<[STABLE_LATEST := ref]> repo_dict)
      | None => Raise KeyError
      end
  end.

(** The test that makes the loop skip a repository. *)
Definition unparsable (r : response) : result bool :=
  if decide (status r ≠ 200%Z) then Ok true
  else
    match content_type r with
    | None => Raise AttributeError
    | Some ct =>
        Ok (negb (bool_decide ("application/json" ∈ Str.split ";" ct)))
    end.

(** The body of the loop over the repositories. *)
Definition process_repository (fetch : string → fetched)
    (new_mapping : Mapping) (repository : string) : result Mapping :=
  match fetch (GITHUB_PATTERN repository) with
  | NoResponse => Raise ClientError
  | Got resp =>
      let '(repo_dict, dicts) :=
        setdefault (short_name repository) ∅ (entries new_mapping) in
      skip ← unparsable resp ;
      if (skip : bool) then Ok (MkMapping (objects new_mapping) dicts)
      else
        match json resp with
        | None => Raise JSONError
        | Some content =>
            let '(objs, repo_dict, latest_stable) :=
              fold_left add_release content
                        (objects new_mapping, repo_dict, None) in
            repo_dict ← add_alias repo_dict latest_stable ;
            Ok (MkMapping objs (<[short_name repository := repo_dict]> dicts))
        end
  end.

Fixpoint create_map_from (fetch : string → fetched) (todo : list string)
    (new_mapping : Mapping) : result Mapping :=
  match todo with
  | [] => Ok new_mapping
  | repository :: todo' =>
      new_mapping ← process_repository fetch new_mapping repository ;
      create_map_from fetch todo' new_mapping
  end.

Definition create_map (fetch : string → fetched) : result Mapping :=
  create_map_from fetch IMAGES_REPOSITORIES empty_mapping.

(** ** ImageRouter.create_map_loop

    [cycles] gives what the remote source answers in each of the coming
    iterations.  The result is the value of [self.mapping] once these
    iterations are over, and the exception that ended the task, if one
    did: the [while True] has no other exit. *)
Fixpoint create_map_loop (cycles : list (string → fetched))
    (self_mapping : Mapping) : Mapping * option exn :=
  match cycles with
  | [] => (self_mapping, None)
  | fetch :: later =>
      match create_map fetch with
      | Ok new_mapping => create_map_loop later new_mapping
      | Raise e => (self_mapping, Some e)
      end
  end.

(** ** The refresh task and the requests, interleaved

    The event loop runs one coroutine at a time and switches at an
    [await] only.  The refresh task awaits each [session.get] and the
    sleep; [request_handler] awaits nothing. *)

Inductive task :=
  | Fetching (fetch : string → fetched) (todo : list string)
             (new_mapping : Mapping)
  | Sleeping
  | Ended (e : exn).

Record app := App {
  mapping : Mapping;
  map_task : task
}.

Inductive event :=
  | Refresh
  | Request (i : match_info) (o : outcome).

Inductive step : app → event → app → Prop :=
  | step_fetch m fetch repository todo partial partial' :
      process_repository fetch partial repository = Ok partial' →
      step (App m (Fetching fetch (repository :: todo) partial)) Refresh
           (App m (Fetching fetch todo partial'))
  | step_raise m fetch repository todo partial e :
      process_repository fetch partial repository = Raise e →
      step (App m (Fetching fetch (repository :: todo) partial)) Refresh
           (App m (Ended e))
  | step_assign m fetch new_mapping :
      step (App m (Fetching fetch [] new_mapping)) Refresh
           (App new_mapping Sleeping)
  | step_wake m fetch :
      step (App m Sleeping) Refresh
           (App m (Fetching fetch IMAGES_REPOSITORIES empty_mapping))
  | step_request a i :
      step a (Request i (request_handler (mapping a) i)) a.

Definition start (fetch : string → fetched) : app :=
  App empty_mapping (Fetching fetch IMAGES_REPOSITORIES empty_mapping).

Inductive reachable : app → Prop :=
  | reachable_start fetch : reachable (start fetch)
  | reachable_step a ev a' : reachable a → step a ev a' → reachable a'.

(** A mapping that one whole run of [create_map] returned, or the initial
    empty one. *)
Definition complete (m : Mapping) : Prop :=
  m = empty_mapping ∨ ∃ fetch, create_map fetch = Ok m.

(** ** Notions used to state the properties *)

(** [url] is source-trusted: the test of [Release.__init__]. *)
Definition trusted (url : string) : bool :=
  Str.startswith_any url ALLOWED_PREFIXES.

(** [rel[arch][vend][target]], when every level is there. *)
Definition url_at (rel : Release) (arch vend target : string) : option string :=
  arch_dict ← rel !! arch; vendor_dict ← arch_dict !! vend; vendor_dict !! target.

(** [rel] has the level [arch] and, under it, the level [vend]. *)
Definition has_vendor (rel : Release) (arch vend : string) : Prop :=
  is_Some (arch_dict ← rel !! arch; arch_dict !! vend).

(** The architecture and vendor keys [store_match] uses. *)
Definition arch_key (gdict : gmap string string) : string :=
  gdict !!! "architecture".
Definition vendor_key (gdict : gmap string string) : string :=
  default "generic" (gdict !! "vendor").

(** [mapping[repository][version][architecture][vendor][file]], when every
    level is there. *)
Definition resolve (mapping : Mapping) (i : match_info) : option string :=
  repo_dict ← entries mapping !! repository i;
  ref ← repo_dict !! version i;
  rel ← objects mapping !! ref;
  url_at rel (architecture i) (vendor i) (file i).

Definition slug (rc : release_contents) : string := slugify (tag_name rc).

(** The release gets an entry: its [Release] object is not empty. *)
Definition published (rc : release_contents) : Prop := Release_init rc ≠ ∅.

(** The stable candidate: a published release with no "nightly" in its
    slug. *)
Definition candidate (rc : release_contents) : Prop :=
  published rc ∧ Str.contains "nightly" (slug rc) = false.

(** The value of [latest_stable] after the loop over [content]. *)
Fixpoint first_stable (content : list release_contents) : option string :=
  match content with
  | [] => None
  | rc :: rest =>
      if decide (candidate rc) then Some (slug rc) else first_stable rest
  end.

(** The position in [content] of the release whose object [repo_dict]
    binds to [key] after the loop: the last published one with that
    slug. *)
Fixpoint last_entry (key : string) (content : list release_contents)
    : option nat :=
  match content with
  | [] => None
  | rc :: rest =>
      match last_entry key rest with
      | Some i => Some (S i)
      | None => if decide (slug rc = key ∧ published rc) then Some 0 else None
      end
  end.

(** The fetch of a repository failed with a response: a status other than
    200, or a Content-Type header that does not list [application/json]. *)
Definition failed_response (r : response) : Prop :=
  status r ≠ 200%Z
  ∨ ∃ ct, content_type r = Some ct ∧ "application/json" ∉ Str.split ";" ct.

(** The fetch of a repository gives a release list. *)
Definition release_list (r : response) (content : list release_contents)
    : Prop :=
  status r = 200%Z
  ∧ (∃ ct, content_type r = Some ct ∧ "application/json" ∈ Str.split ";" ct)
  ∧ json r = Some content.

(** Every reference of the mapping designates an object, and every object
    is the [Release] of some release. *)
Definition well_formed (m : Mapping) : Prop :=
  (∀ repo d key ref, entries m !! repo = Some d → d !! key = Some ref →
                     ref < length (objects m))
  ∧ (∀ ref rel, objects m !! ref = Some rel → ∃ rc, rel = Release_init rc).


(** The release map as the specification words it: every release of the
    list has an entry under its slug, holding its [Release], empty or
    not. *)
Definition entries_as_specified (content : list release_contents)
    (objs : list Release) (repo_dict : gmap string nat) : Prop :=
  ∀ rc, rc ∈ content →
        ∃ ref, repo_dict !! slug rc = Some ref
               ∧ objs !! ref = Some (Release_init rc).

(** The refresh loop as the specification words it: whatever the fetches
    do, the task is still looping after any number of cycles. *)
Definition never_fatal : Prop :=
  ∀ cycles self_mapping, (create_map_loop cycles self_mapping).2 = None.

(** Every configured repository is answered with a response, which is a
    failed one or carries a release list. *)
Definition answers (fetch : string → fetched) : Prop :=
  ∀ r, r ∈ IMAGES_REPOSITORIES →
       ∃ resp, fetch (GITHUB_PATTERN r) = Got resp
               ∧ (failed_response resp ∨ ∃ content, release_list resp content).

(** While the task is inside [create_map], what remains to be done leads
    to the result of the whole run. *)
Definition task_invariant (t : task) : Prop :=
  match t with
  | Fetching fetch todo partial =>
      create_map_from fetch todo partial = create_map fetch
  | _ => True
  end.

(** The mapping a cycle builds, the empty one if [create_map] raises. *)
Definition built (fetch : string → fetched) : Mapping :=
  match create_map fetch with
  | Ok m => m
  | Raise _ => empty_mapping
  end.

(** The release map of a repository, empty if it has none. *)
Definition slice (m : Mapping) (repo : string) : gmap string nat :=
  default ∅ (entries m !! repo).

(** A character a slug may hold: one of [[a-z0-9_]], or the dash that
    stands for a run of the others. *)
Definition slug_char (c : ascii) : bool :=
  negb (not_allowed c) || bool_decide (c = "-"%char).

Definition not_slash (c : ascii) : bool := negb (bool_decide (c = "/"%char)).

(** The filename of the asset matches one of the patterns. *)
Definition recognised (a : asset) : Prop :=
  is_Some (first_match PATTERNS (name a)).

(** The same release with only the assets whose filename matches. *)
Definition only_recognised (rc : release_contents) : release_contents :=
  ReleaseContents (tag_name rc) (filter recognised (assets rc)).


(** How a pattern reads a string: as [accepts], with the text of every
    named repetition recorded under its name. *)
Fixpoint parses (r : regex) (s : string) (g g' : gmap string string) : Prop :=
  match r with
  | [] => g' = g
  | Literal l :: r' => ∃ s', s = l +:+ s' ∧ parses r' s' g g'
  | AnyChar :: r' =>
      ∃ c s', s = String c s' ∧ c ≠ newline ∧ parses r' s' g g'
  | Repeat cs :: r' =>
      ∃ m s', s = m +:+ s' ∧ m ≠ EmptyString
              ∧ Str.all_chars (in_set cs) m = true ∧ parses r' s' g g'
  | NamedRepeat nm cs :: r' =>
      ∃ m s', s = m +:+ s' ∧ m ≠ EmptyString
              ∧ Str.all_chars (in_set cs) m = true
              ∧ parses r' s' (<[nm := m]> g) g'
  end.

(** ** Strings *)

Local Arguments String.append !_ _ : simpl nomatch.

Lemma strip_prefix_Some l s s' :
  Str.strip_prefix l s = Some s' → s = l +:+ s'.
Proof.
  revert s. induction l as [|p l IH]; intros s; simpl.
  - congruence.
  - destruct s as [|c s]; [done|]. case_decide; [|done].
    intros Hs. subst. f_equal. by apply IH.
Qed.

Lemma startswith_nonempty s p :
  Str.startswith s p = true → p ≠ EmptyString → s ≠ EmptyString.
Proof. destruct p, s; simpl; congruence. Qed.

Lemma all_chars_app p m1 m2 :
  Str.all_chars p (m1 +:+ m2) = Str.all_chars p m1 && Str.all_chars p m2.
Proof. induction m1 as [|c m1 IH]; simpl; [done|]. rewrite IH. by destruct (p c). Qed.

(** A run of characters of a set ends where the first character outside
    the set stands: two ways of reading the same string as a run followed
    by a character outside the set agree. *)
Lemma run_end p m1 c1 t1 m2 c2 t2 :
  Str.all_chars p m1 = true → Str.all_chars p m2 = true →
  p c1 = false → p c2 = false →
  m1 +:+ String c1 t1 = m2 +:+ String c2 t2 →
  m1 = m2 ∧ c1 = c2 ∧ t1 = t2.
Proof.
  revert m2. induction m1 as [|a m1 IH]; intros [|b m2]; simpl;
    intros H1 H2 Hc1 Hc2 Heq; simplify_eq.
  - done.
  - apply andb_prop in H2 as [? _]. congruence.
  - apply andb_prop in H1 as [? _]. congruence.
  - apply andb_prop in H1 as [_ ?]. apply andb_prop in H2 as [_ ?].
    destruct (IH m2) as (-> & -> & ->); auto.
Qed.

(** ** Regular expressions *)

Lemma greedy_sound {R} cs s (k : string → string → option R) r :
  greedy cs s k = Some r →
  ∃ m rest, s = m +:+ rest ∧ m ≠ EmptyString
            ∧ Str.all_chars (in_set cs) m = true ∧ k m rest = Some r.
Proof.
  revert k. induction s as [|c s IH]; intros k; simpl; [done|].
  destruct (in_set cs c) eqn:Hc; [|done].
  destruct (greedy cs s _) as [r'|] eqn:Hg.
  - intros [= ->]. apply IH in Hg as (m & rest & -> & _ & Hm & Hk).
    exists (String c m), rest. simpl. by rewrite Hc, Hm.
  - intros Hk. exists (String c EmptyString), s. simpl. by rewrite Hc.
Qed.

Lemma match_nodes_accepts r s g g' :
  match_nodes r s g = Some g' → accepts r s.
Proof.
  revert s g. induction r as [|n r IH]; intros s g; simpl; [done|].
  destruct n as [l| |cs|nm cs].
  - destruct (Str.strip_prefix l s) as [s'|] eqn:Hl; [|done].
    intros H. exists s'. split; [by apply strip_prefix_Some|by eapply IH].
  - destruct s as [|c s]; [done|]. case_decide; [done|].
    intros Hr. exists c, s. eauto.
  - intros H. apply greedy_sound in H as (m & rest & -> & ? & ? & H).
    exists m, rest. eauto.
  - intros H. apply greedy_sound in H as (m & rest & -> & ? & ? & H).
    exists m, rest. eauto.
Qed.

Lemma re_match_accepts r s g : re_match r s = Some g → accepts r s.
Proof. apply match_nodes_accepts. Qed.

(** The keys of a [groupdict()] are the group names of the pattern. *)
Lemma match_nodes_keys r s g g' k :
  match_nodes r s g = Some g' →
  is_Some (g' !! k) ↔ k ∈ group_names r ∨ is_Some (g !! k).
Proof.
  revert s g. induction r as [|n r IH]; intros s g; simpl.
  - intros [= ->]. rewrite elem_of_nil. tauto.
  - destruct n as [l| |cs|nm cs].
    + destruct (Str.strip_prefix l s); [|done]. apply IH.
    + destruct s; [done|]. case_decide; [done|]. apply IH.
    + intros H. apply greedy_sound in H as (m & rest & _ & _ & _ & H).
      by apply IH in H.
    + intros H. apply greedy_sound in H as (m & rest & _ & _ & _ & H).
      apply IH in H. rewrite H, elem_of_cons, lookup_insert.
      case_decide; subst.
      * split; [auto|]. intros _. right. by eexists.
      * split; [intros [?|?]; auto|intros [[?|?]|?]; auto; done].
Qed.

Lemma groupdict_keys r s g k :
  re_match r s = Some g → is_Some (g !! k) ↔ k ∈ group_names r.
Proof.
  intros H. rewrite (match_nodes_keys _ _ _ _ k H), lookup_empty.
  split; [intros [?|[? ?]]; done|auto].
Qed.

Lemma lower_alnum_alnum m :
  Str.all_chars (in_set lower_alnum) m = true →
  Str.all_chars (in_set alnum) m = true.
Proof.
  induction m as [|c m IH]; simpl; [done|].
  intros [Hc Hm]%andb_prop. rewrite (IH Hm), andb_true_r.
  revert Hc. unfold in_set, lower_alnum, alnum. simpl.
  destruct (Str.between "a" "z" c), (Str.between "0" "9" c),
    (Str.between "A" "Z" c); done.
Qed.

(** After [prefix-], a name cannot go on both as [alnum+ "-"] and as
    [lower_alnum+ "_"]. *)
Lemma dash_or_underscore m1 t1 m2 t2 :
  Str.all_chars (in_set alnum) m1 = true →
  Str.all_chars (in_set lower_alnum) m2 = true →
  m1 +:+ "-" +:+ t1 = m2 +:+ "_" +:+ t2 → False.
Proof.
  intros H1 H2%lower_alnum_alnum Heq.
  by destruct (run_end (in_set alnum) m1 "-" t1 m2 "_" t2) as (_ & ? & _).
Qed.

Lemma feature_word word m t rest :
  Str.all_chars (in_set alnum) word = true →
  Str.all_chars (in_set alnum) m = true →
  word +:+ "-" +:+ rest = m +:+ "-" +:+ t →
  rest = t.
Proof.
  intros Hw Hm Heq.
  by destruct (run_end (in_set alnum) word "-" rest m "-" t) as (_ & _ & ?).
Qed.

Lemma rootfs_not_adaptation s :
  accepts DROIDIAN_ROOTFS s → accepts DROIDIAN_ADAPTATION s → False.
Proof.
  intros (s1 & -> & _) (s2 & H & _). simpl in H. congruence.
Qed.

Lemma rootfs_not_feature s :
  accepts DROIDIAN_ROOTFS s → accepts DROIDIAN_FEATURE s → False.
Proof.
  intros (s1 & -> & m1 & s2 & -> & _ & Hm1 & s3 & -> & _)
         (t1 & Ht1 & f & t2 & -> & _ & Hf & t3 & -> & a & t4 & -> & _ & Ha
          & t5 & -> & _).
  simpl in Ht1. simplify_eq.
  apply (feature_word "rootfs") in Ht1; [|done..].
  by apply dash_or_underscore in Ht1.
Qed.

Lemma adaptation_not_feature s :
  accepts DROIDIAN_ADAPTATION s → accepts DROIDIAN_FEATURE s → False.
Proof.
  intros (s1 & -> & m1 & s2 & -> & _ & Hm1 & s3 & -> & _)
         (t1 & Ht1 & f & t2 & -> & _ & Hf & t3 & -> & a & t4 & -> & _ & Ha
          & t5 & -> & _).
  simpl in Ht1. simplify_eq.
  apply (feature_word "adaptation") in Ht1; [|done..].
  by apply dash_or_underscore in Ht1.
Qed.

(** ** Release.__init__ *)

Lemma store_match_eq a self g :
  store_match a self g =
  let arch_dict := default ∅ (self !! arch_key g) in
  let vendor_dict := default ∅ (arch_dict !! vendor_key g) in
  <[arch_key g :=
      <[vendor_key g :=
          if trusted (browser_download_url a)
          then <[target_of g := browser_download_url a]> vendor_dict
          else vendor_dict]> arch_dict]> self.
Proof.
  unfold store_match, setdefault, trusted. fold (arch_key g) (vendor_key g).
  destruct (self !! arch_key g) as [ad|] eqn:Ha; simpl.
  - destruct (ad !! vendor_key g) as [vd|] eqn:Hv; simpl; [done|].
    by rewrite insert_insert_eq.
  - rewrite lookup_empty. simpl. by rewrite !insert_insert_eq.
Qed.

Lemma url_at_store_match a self g x y z :
  url_at (store_match a self g) x y z =
  if decide (x = arch_key g ∧ y = vendor_key g ∧ z = target_of g
             ∧ trusted (browser_download_url a) = true)
  then Some (browser_download_url a)
  else url_at self x y z.
Proof.
  rewrite store_match_eq. unfold url_at. simpl.
  rewrite lookup_insert.
  destruct (decide (arch_key g = x)) as [<-|Hx]; simpl.
  2:{ rewrite decide_False by intuition congruence. done. }
  rewrite lookup_insert.
  destruct (decide (vendor_key g = y)) as [<-|Hy]; simpl.
  2:{ rewrite decide_False by intuition congruence.
      by destruct (self !! arch_key g). }
  destruct (trusted (browser_download_url a)) eqn:Ht.
  - rewrite lookup_insert.
    destruct (decide (target_of g = z)) as [<-|Hz].
    + by rewrite decide_True.
    + rewrite decide_False by intuition congruence.
      destruct (self !! arch_key g) as [ad|]; simpl; [|done].
      by destruct (ad !! vendor_key g).
  - rewrite decide_False by intuition congruence.
    destruct (self !! arch_key g) as [ad|]; simpl; [|done].
    by destruct (ad !! vendor_key g).
Qed.

Lemma has_vendor_store_match a self g :
  has_vendor (store_match a self g) (arch_key g) (vendor_key g).
Proof.
  rewrite store_match_eq. unfold has_vendor. simpl.
  rewrite lookup_insert_eq. simpl. rewrite lookup_insert_eq. by eexists.
Qed.

Lemma has_vendor_store_match_mono a self g x y :
  has_vendor self x y → has_vendor (store_match a self g) x y.
Proof.
  rewrite store_match_eq. unfold has_vendor. simpl. intros [vd Hvd].
  rewrite lookup_insert.
  destruct (decide (arch_key g = x)) as [<-|Hx]; simpl; [|by eexists].
  rewrite lookup_insert. case_decide; [by eexists|].
  destruct (self !! arch_key g); simpl in *; [by eexists|done].
Qed.

(** What holds of [self] and is kept by every successful match holds
    after the asset. *)
Lemma classify_asset_ind (P : Release → Prop) a self :
  P self →
  (∀ self' regex g, regex ∈ PATTERNS → re_match regex (name a) = Some g →
                    P self' → P (store_match a self' g)) →
  P (classify_asset self a).
Proof.
  intros H0 Hstep. unfold classify_asset.
  assert (Hin : ∀ regex, regex ∈ PATTERNS → regex ∈ PATTERNS) by auto.
  revert self H0 Hin. generalize PATTERNS at 1 3.
  induction l as [|regex l IH]; intros self H0 Hin; simpl; [done|].
  apply IH; [|intros; apply Hin; by right].
  unfold try_regex. destruct (re_match regex (name a)) as [g|] eqn:Hm; [|done].
  apply Hstep with regex; [apply Hin; by left|done..].
Qed.

Lemma fold_classify_ind (P : Release → Prop) l self :
  P self →
  (∀ self' a regex g, a ∈ l → regex ∈ PATTERNS →
                      re_match regex (name a) = Some g →
                      P self' → P (store_match a self' g)) →
  P (fold_left classify_asset l self).
Proof.
  revert self. induction l as [|a l IH]; intros self H0 Hstep; simpl; [done|].
  apply IH.
  - apply classify_asset_ind; [done|]. intros. eapply Hstep; eauto. by left.
  - intros. eapply Hstep; eauto. by right.
Qed.

Lemma Release_init_ind (P : Release → Prop) rc :
  P ∅ →
  (∀ self a regex g, a ∈ assets rc → regex ∈ PATTERNS →
                     re_match regex (name a) = Some g →
                     P self → P (store_match a self g)) →
  P (Release_init rc).
Proof. intros. unfold Release_init. by apply fold_classify_ind. Qed.

(** What each pattern makes of a filename it matches. *)
Lemma rootfs_classification filename g :
  re_match DROIDIAN_ROOTFS filename = Some g →
  is_Some (g !! "architecture")
  ∧ vendor_key g = "generic" ∧ target_of g = "rootfs.zip".
Proof.
  intros H. pose proof (λ k, groupdict_keys _ _ _ k H) as Hk. simpl in Hk.
  assert (Hnot : ∀ k, k ≠ "architecture" → k ≠ "date" → g !! k = None).
  { intros k H1 H2. apply eq_None_not_Some. rewrite Hk.
    rewrite !elem_of_cons, elem_of_nil. tauto. }
  split; [apply Hk; by left|]. unfold vendor_key, target_of.
  by rewrite !Hnot.
Qed.

Lemma adaptation_classification filename g :
  re_match DROIDIAN_ADAPTATION filename = Some g →
  is_Some (g !! "architecture")
  ∧ ∃ vend model, g !! "vendor" = Some vend ∧ g !! "model" = Some model
      ∧ vendor_key g = vend
      ∧ target_of g = "adaptation-" +:+ model +:+ ".zip".
Proof.
  intros H. pose proof (λ k, groupdict_keys _ _ _ k H) as Hk. simpl in Hk.
  destruct (proj2 (Hk "vendor")) as [vend Hv]; [by left|].
  destruct (proj2 (Hk "model")) as [model Hm]; [right; by left|].
  split; [apply Hk; do 2 right; by left|].
  exists vend, model. unfold vendor_key, target_of. by rewrite Hv, Hm.
Qed.

Lemma feature_classification filename g :
  re_match DROIDIAN_FEATURE filename = Some g →
  is_Some (g !! "architecture")
  ∧ ∃ feature, g !! "feature" = Some feature
      ∧ vendor_key g = "generic"
      ∧ target_of g = "feature-" +:+ feature +:+ ".zip".
Proof.
  intros H. pose proof (λ k, groupdict_keys _ _ _ k H) as Hk. simpl in Hk.
  assert (Hnot : ∀ k, k ≠ "feature" → k ≠ "architecture" → k ≠ "date" →
                      g !! k = None).
  { intros k H1 H2 H3. apply eq_None_not_Some. rewrite Hk.
    rewrite !elem_of_cons, elem_of_nil. tauto. }
  destruct (proj2 (Hk "feature")) as [feature Hf]; [by left|].
  split; [apply Hk; right; by left|].
  exists feature. unfold vendor_key, target_of.
  by rewrite Hf, !Hnot.
Qed.

(** [gdict["architecture"]] never fails. *)
Lemma architecture_bound regex filename g :
  regex ∈ PATTERNS → re_match regex filename = Some g →
  is_Some (g !! "architecture").
Proof.
  unfold PATTERNS. rewrite !elem_of_cons, elem_of_nil.
  intros [->|[->|[->|[]]]] H.
  - by apply rootfs_classification in H as [? _].
  - by apply adaptation_classification in H as [? _].
  - by apply feature_classification in H as [? _].
Qed.

Lemma url_at_empty x y z : url_at ∅ x y z = None.
Proof. unfold url_at. by rewrite lookup_empty. Qed.

Lemma trusted_prefix url :
  trusted url = true →
  ∃ prefix, prefix ∈ ALLOWED_PREFIXES ∧ Str.startswith url prefix = true.
Proof.
  unfold trusted, Str.startswith_any. intros (p & Hp & ?)%existsb_exists.
  exists p. by rewrite list_elem_of_In.
Qed.

Lemma trusted_nonempty url : trusted url = true → url ≠ EmptyString.
Proof.
  intros (p & Hp & Hs)%trusted_prefix.
  apply (startswith_nonempty _ p); [done|].
  unfold ALLOWED_PREFIXES in Hp. apply list_elem_of_fmap in Hp as (r & -> & _).
  done.
Qed.

Lemma Release_init_urls rc x y z url :
  url_at (Release_init rc) x y z = Some url →
  trusted url = true ∧ ∃ a, a ∈ assets rc ∧ browser_download_url a = url.
Proof.
  revert x y z url. apply Release_init_ind.
  - intros x y z url. by rewrite url_at_empty.
  - intros self a regex g Ha _ _ IH x y z url.
    rewrite url_at_store_match. case_decide as Hd; [|apply IH].
    intros [= <-]. split; [apply Hd|eauto].
Qed.

Lemma at_most_one_pattern f g1 g2 r1 r2 :
  r1 ∈ PATTERNS → r2 ∈ PATTERNS →
  re_match r1 f = Some g1 → re_match r2 f = Some g2 → r1 = r2.
Proof.
  unfold PATTERNS. rewrite !elem_of_cons, !elem_of_nil.
  intros [->|[->|[->|[]]]] [->|[->|[->|[]]]]
         H1%re_match_accepts H2%re_match_accepts; try done; exfalso;
    eauto using rootfs_not_adaptation, rootfs_not_feature,
                adaptation_not_feature.
Qed.

Lemma classify_asset_first self a :
  classify_asset self a =
  match first_match PATTERNS (name a) with
  | Some gdict => store_match a self gdict
  | None => self
  end.
Proof.
  unfold classify_asset, PATTERNS, try_regex. simpl.
  destruct (re_match DROIDIAN_ROOTFS (name a)) as [g1|] eqn:H1;
  destruct (re_match DROIDIAN_ADAPTATION (name a)) as [g2|] eqn:H2;
  destruct (re_match DROIDIAN_FEATURE (name a)) as [g3|] eqn:H3;
  try done; exfalso;
  repeat match goal with H : re_match _ _ = Some _ |- _ =>
    apply re_match_accepts in H end;
  eauto using rootfs_not_adaptation, rootfs_not_feature,
              adaptation_not_feature.
Qed.


(** ** The loop over the releases of a repository *)




Lemma last_entry_Some key content i :
  last_entry key content = Some i →
  ∃ rc, content !! i = Some rc ∧ slug rc = key ∧ published rc.
Proof.
  revert i. induction content as [|rc rest IH]; intros i; simpl; [done|].
  destruct (last_entry key rest) as [j|].
  - intros [= <-]. by apply IH.
  - case_decide as Hd; [|done]. intros [= <-]. exists rc. by destruct Hd.
Qed.

Lemma last_entry_lt key content i :
  last_entry key content = Some i → i < length content.
Proof.
  intros (rc & Hrc & _)%last_entry_Some. by eapply lookup_lt_Some.
Qed.

Lemma last_entry_None key content :
  Forall (λ rc, slug rc = key → ¬ published rc) content →
  last_entry key content = None.
Proof.
  induction 1 as [|rc rest Hrc _ IH]; simpl; [done|].
  rewrite IH. apply decide_False. tauto.
Qed.

Lemma last_entry_here pre rc post :
  published rc →
  Forall (λ rc', slug rc' = slug rc → ¬ published rc') post →
  last_entry (slug rc) (pre ++ rc :: post) = Some (length pre).
Proof.
  intros Hrc Hpost. induction pre as [|rc' pre IH]; simpl.
  - rewrite last_entry_None by done. by rewrite decide_True.
  - by rewrite IH.
Qed.

Lemma first_stable_entry content s :
  first_stable content = Some s → is_Some (last_entry s content).
Proof.
  induction content as [|rc rest IH]; simpl; [done|].
  case_decide as Hc.
  - intros [= <-]. destruct (last_entry (slug rc) rest); [by eexists|].
    rewrite decide_True; [by eexists|]. by destruct Hc.
  - intros [i Hi]%IH. rewrite Hi. by eexists.
Qed.

Lemma fold_add_release content objs d ls :
  ∃ d',
    fold_left add_release content (objs, d, ls)
    = (objs ++ (Release_init <$> content), d',
       match ls with Some s => Some s | None => first_stable content end)
    ∧ ∀ key, d' !! key =
             match last_entry key content with
             | Some i => Some (length objs + i)
             | None => d !! key
             end.
Proof.
  revert objs d ls. induction content as [|rc rest IH]; intros objs d ls; simpl.
  { exists d. rewrite app_nil_r. by destruct ls. }
  fold (slug rc). destruct (decide (Release_init rc = ∅)) as [He|Hne].
  - destruct (IH (objs ++ [Release_init rc]) d ls) as (d' & -> & Hd').
    exists d'. rewrite <- app_assoc. simpl. split.
    + f_equal. destruct ls; [done|]. rewrite decide_False; [done|].
      by intros [? _].
    + intros key. rewrite Hd', length_app. simpl.
      destruct (last_entry key rest); [f_equal; lia|].
      rewrite decide_False; [done|]. by intros [_ ?].
  - set (ls1 := match ls with
                | None => if Str.contains "nightly" (slug rc) then None
                          else Some (slug rc)
                | Some _ => ls end).
    destruct (IH (objs ++ [Release_init rc])
                 (<[slug rc := length objs]> d) ls1) as (d' & -> & Hd').
    exists d'. rewrite <- app_assoc. simpl. split.
    + f_equal. subst ls1. destruct ls; [done|].
      destruct (decide (candidate rc)) as [[_ Hc]|Hc]; [by rewrite Hc|].
      destruct (Str.contains "nightly" (slug rc)) eqn:Hn; [done|].
      by destruct Hc.
    + intros key. rewrite Hd', length_app. simpl.
      destruct (last_entry key rest); [f_equal; lia|].
      rewrite lookup_insert. case_decide as Hk.
      * rewrite decide_True by done. f_equal. lia.
      * rewrite decide_False; [done|]. by intros [? _].
Qed.

(** ** The loop over the repositories *)

Lemma unparsable_true r :
  unparsable r = Ok true ↔ failed_response r.
Proof.
  unfold unparsable, failed_response. case_decide as Hs.
  - split; [by left|done].
  - destruct (content_type r) as [ct|].
    + case_bool_decide as Hj; simpl.
      * split; [done|]. intros [?|(ct' & [= <-] & Hn)]; done.
      * split; [|done]. intros _. right. by exists ct.
    + split; [done|]. intros [?|(ct' & ? & _)]; done.
Qed.

Lemma unparsable_false r :
  unparsable r = Ok false ↔
  status r = 200%Z
  ∧ ∃ ct, content_type r = Some ct ∧ "application/json" ∈ Str.split ";" ct.
Proof.
  unfold unparsable. case_decide as Hs.
  - split; [done|]. intros [? _]. done.
  - destruct (content_type r) as [ct|].
    + case_bool_decide as Hj; simpl.
      * split; [|done]. intros _. split; [done|]. by exists ct.
      * split; [done|]. intros (_ & ct' & [= <-] & ?). done.
    + split; [done|]. intros (_ & ct' & ? & _). done.
Qed.

Lemma process_repository_failed fetch m r resp :
  fetch (GITHUB_PATTERN r) = Got resp → failed_response resp →
  process_repository fetch m r
  = Ok (MkMapping (objects m) (setdefault (short_name r) ∅ (entries m)).2).
Proof.
  intros Hf Hr%unparsable_true. unfold process_repository. rewrite Hf.
  destruct (setdefault _ _ _) as [d0 dicts]. by rewrite Hr.
Qed.

Lemma process_repository_list fetch m r resp content :
  fetch (GITHUB_PATTERN r) = Got resp → release_list resp content →
  ∃ d_loop ref,
    fold_left add_release content
              (objects m, default ∅ (entries m !! short_name r), None)
    = (objects m ++ (Release_init <$> content), d_loop, first_stable content)
    ∧ (∀ key, d_loop !! key =
              match last_entry key content with
              | Some i => Some (length (objects m) + i)
              | None => default ∅ (entries m !! short_name r) !! key
              end)
    ∧ (ref = (s ← first_stable content; d_loop !! s))
    ∧ add_alias d_loop (first_stable content)
      = Ok (match ref with
            | Some x => <[STABLE_LATEST := x]> d_loop
            | None => d_loop
            end)
    ∧ process_repository fetch m r
      = Ok (MkMapping (objects m ++ (Release_init <$> content))
              (<[short_name r :=
                   match ref with
                   | Some x => <[STABLE_LATEST := x]> d_loop
                   | None => d_loop
                   end]> (entries m))).
Proof.
  intros Hf (Hs & Hct & Hj).
  assert (Hu : unparsable resp = Ok false) by by apply unparsable_false.
  destruct (fold_add_release content (objects m)
              (default ∅ (entries m !! short_name r)) None)
    as (d_loop & Hfold & Hd).
  exists d_loop, (s ← first_stable content; d_loop !! s).
  split; [done|]. split; [done|]. split; [done|].
  assert (Ha : add_alias d_loop (first_stable content)
               = Ok (match s ← first_stable content; d_loop !! s with
                     | Some x => <[STABLE_LATEST := x]> d_loop
                     | None => d_loop
                     end)).
  { unfold add_alias. destruct (first_stable content) as [s|] eqn:Hfs; [|done].
    simpl. destruct (first_stable_entry _ _ Hfs) as [i Hi].
    rewrite Hd, Hi. done. }
  split; [done|].
  unfold process_repository. rewrite Hf. unfold setdefault.
  destruct (entries m !! short_name r) as [d0|] eqn:Hd0; simpl in *;
    rewrite Hu; simpl; rewrite Hj, Hfold; simpl; rewrite Ha; simpl.
  - done.
  - by rewrite insert_insert_eq.
Qed.

Lemma process_repository_Ok fetch m r m' :
  process_repository fetch m r = Ok m' →
  ∃ resp, fetch (GITHUB_PATTERN r) = Got resp
          ∧ (failed_response resp ∨ ∃ content, release_list resp content).
Proof.
  unfold process_repository.
  destruct (fetch (GITHUB_PATTERN r)) as [|resp] eqn:Hf; [done|].
  destruct (setdefault _ _ _) as [d0 dicts].
  destruct (unparsable resp) as [[]|] eqn:Hu; simpl; [| |done].
  - intros _. exists resp. split; [done|]. left. by apply unparsable_true.
  - destruct (json resp) as [content|] eqn:Hj; [|done].
    intros _. exists resp. split; [done|]. right. exists content.
    apply unparsable_false in Hu as [? ?]. done.
Qed.


Lemma setdefault_snd_lookup {V} k (v : V) d k' :
  (setdefault k v d).2 !! k' =
  if decide (k = k') then Some (default v (d !! k)) else d !! k'.
Proof.
  unfold setdefault. destruct (d !! k) eqn:Hk; simpl.
  - case_decide; by subst.
  - by rewrite lookup_insert.
Qed.

Lemma process_repository_frame fetch m r m' :
  process_repository fetch m r = Ok m' →
  (∃ more, objects m' = objects m ++ more)
  ∧ ∀ key, key ≠ short_name r → entries m' !! key = entries m !! key.
Proof.
  intros H. destruct (process_repository_Ok _ _ _ _ H)
    as (resp & Hf & [Hr|[content Hr]]).
  - rewrite (process_repository_failed _ _ _ _ Hf Hr) in H.
    injection H as <-. simpl. split; [exists []; by rewrite app_nil_r|].
    intros key Hk. rewrite setdefault_snd_lookup. by rewrite decide_False.
  - destruct (process_repository_list fetch m r _ _ Hf Hr)
      as (d_loop & ref & _ & _ & _ & _ & Hp).
    rewrite Hp in H. injection H as <-. simpl. split; [by eexists|].
    intros key Hk. by rewrite lookup_insert_ne.
Qed.

Lemma process_repository_wf fetch m r m' :
  well_formed m → process_repository fetch m r = Ok m' → well_formed m'.
Proof.
  intros [Hrefs Hobjs] H. destruct (process_repository_Ok _ _ _ _ H)
    as (resp & Hf & [Hr|[content Hr]]).
  - rewrite (process_repository_failed _ _ _ _ Hf Hr) in H.
    injection H as <-. split; simpl; [|done].
    intros repo d key ref. rewrite setdefault_snd_lookup.
    case_decide; [|by apply Hrefs]. intros [= <-].
    destruct (entries m !! short_name r) eqn:Hd; simpl; [by eapply Hrefs|done].
  - destruct (process_repository_list fetch m r _ _ Hf Hr)
      as (d_loop & ref & _ & Hd & Href & _ & Hp).
    rewrite Hp in H. injection H as <-. simpl.
    assert (Hloop : ∀ key x, d_loop !! key = Some x →
                             x < length (objects m ++ (Release_init <$> content))).
    { intros key x. rewrite Hd, length_app, length_fmap.
      destruct (last_entry key content) as [i|] eqn:Hi.
      - intros [= <-]. apply last_entry_lt in Hi. lia.
      - destruct (entries m !! short_name r) as [d0|] eqn:Hd0; simpl; [|done].
        intros Hx. pose proof (Hrefs _ _ _ _ Hd0 Hx). lia. }
    split; simpl.
    + intros repo d key x. rewrite lookup_insert. case_decide.
      * intros [= <-]. destruct ref as [y|]; [|by apply Hloop].
        rewrite lookup_insert. case_decide; [|by apply Hloop].
        intros [= <-].
        destruct (first_stable content) as [s|]; simpl in *; [|done].
        by eapply Hloop.
      * intros Hr1 Hr2. pose proof (Hrefs _ _ _ _ Hr1 Hr2).
        rewrite length_app. lia.
    + intros x rel. rewrite lookup_app.
      destruct (objects m !! x) eqn:Hx; [intros [= <-]; by eapply Hobjs|].
      rewrite list_lookup_fmap. destruct (content !! _) as [rc|]; [|done].
      intros [= <-]. by exists rc.
Qed.

Lemma create_map_from_frame fetch todo m m' :
  create_map_from fetch todo m = Ok m' →
  (∃ more, objects m' = objects m ++ more)
  ∧ ∀ key, key ∉ short_name <$> todo → entries m' !! key = entries m !! key.
Proof.
  revert m. induction todo as [|r todo IH]; intros m; simpl.
  - intros [= <-]. split; [exists []; by rewrite app_nil_r|done].
  - destruct (process_repository fetch m r) as [m1|] eqn:Hp; [|done]. simpl.
    intros [[more2 H2] He2]%IH.
    apply process_repository_frame in Hp as [[more1 H1] He1].
    split; [exists (more1 ++ more2); by rewrite H2, H1, app_assoc|].
    intros key Hk. rewrite not_elem_of_cons in Hk. destruct Hk.
    rewrite He2, He1; done.
Qed.

Lemma create_map_from_wf fetch todo m m' :
  well_formed m → create_map_from fetch todo m = Ok m' → well_formed m'.
Proof.
  revert m. induction todo as [|r todo IH]; intros m Hm; simpl.
  - by intros [= <-].
  - destruct (process_repository fetch m r) as [m1|] eqn:Hp; [|done]. simpl.
    apply IH. by eapply process_repository_wf.
Qed.

Lemma create_map_from_app fetch pre post m m' :
  create_map_from fetch (pre ++ post) m = Ok m' →
  ∃ m1, create_map_from fetch pre m = Ok m1
        ∧ create_map_from fetch post m1 = Ok m'.
Proof.
  revert m. induction pre as [|r pre IH]; intros m; simpl; [by eauto|].
  destruct (process_repository fetch m r) as [m1|]; [|done]. simpl. apply IH.
Qed.

Lemma well_formed_empty : well_formed empty_mapping.
Proof. split; simpl; intros *; [by rewrite lookup_empty|done]. Qed.

Lemma create_map_wf fetch m : create_map fetch = Ok m → well_formed m.
Proof. apply create_map_from_wf, well_formed_empty. Qed.

(** With pairwise distinct short names, the entry of a repository in the
    result is the one its own turn of the loop left. *)
Lemma create_map_slice fetch m r :
  NoDup (short_name <$> IMAGES_REPOSITORIES) → r ∈ IMAGES_REPOSITORIES →
  create_map fetch = Ok m →
  ∃ m1 m2 more,
    process_repository fetch m1 r = Ok m2
    ∧ entries m1 !! short_name r = None
    ∧ entries m !! short_name r = entries m2 !! short_name r
    ∧ objects m = objects m2 ++ more.
Proof.
  unfold create_map. intros Hnd Hin Hm.
  apply list_elem_of_split in Hin as (pre & post & Heq). rewrite Heq in *.
  clear Heq. rewrite fmap_app, fmap_cons in Hnd.
  apply NoDup_app in Hnd as (_ & Hpre & [Hpost _]%NoDup_cons).
  apply create_map_from_app in Hm as (m1 & H1 & H2). simpl in H2.
  destruct (process_repository fetch m1 r) as [m2|] eqn:Hp; [|done].
  simpl in H2. exists m1, m2.
  apply create_map_from_frame in H1 as [_ He1].
  apply create_map_from_frame in H2 as [[more Ho2] He2].
  exists more. split; [done|]. split; [|split; [by apply He2|done]].
  rewrite He1; [done|]. intros Hin. apply (Hpre _ Hin). by left.
Qed.

Lemma slice_failed fetch m r resp :
  NoDup (short_name <$> IMAGES_REPOSITORIES) → r ∈ IMAGES_REPOSITORIES →
  create_map fetch = Ok m →
  fetch (GITHUB_PATTERN r) = Got resp → failed_response resp →
  entries m !! short_name r = Some ∅.
Proof.
  intros Hnd Hr Hm Hf Hresp.
  destruct (create_map_slice _ _ _ Hnd Hr Hm) as (m1 & m2 & more & Hp & H1 & -> & _).
  rewrite (process_repository_failed _ _ _ _ Hf Hresp) in Hp.
  injection Hp as <-. simpl. rewrite setdefault_snd_lookup, decide_True by done.
  by rewrite H1.
Qed.

Lemma slice_list fetch m r resp content :
  NoDup (short_name <$> IMAGES_REPOSITORIES) → r ∈ IMAGES_REPOSITORIES →
  create_map fetch = Ok m →
  fetch (GITHUB_PATTERN r) = Got resp → release_list resp content →
  ∃ objs0 more d_loop,
    objects m = objs0 ++ (Release_init <$> content) ++ more
    ∧ fold_left add_release content (objs0, ∅, None)
      = (objs0 ++ (Release_init <$> content), d_loop, first_stable content)
    ∧ (∀ key, d_loop !! key
              = (λ i, length objs0 + i) <$> last_entry key content)
    ∧ entries m !! short_name r
      = Some (match s ← first_stable content; d_loop !! s with
              | Some x => <[STABLE_LATEST := x]> d_loop
              | None => d_loop
              end).
Proof.
  intros Hnd Hr Hm Hf Hresp.
  destruct (create_map_slice _ _ _ Hnd Hr Hm)
    as (m1 & m2 & more & Hp & H1 & -> & Hobjs).
  destruct (process_repository_list fetch m1 r _ _ Hf Hresp)
    as (d_loop & ref & Hfold & Hd & -> & _ & Hp').
  rewrite Hp' in Hp. injection Hp as <-. simpl in *.
  rewrite H1 in Hfold, Hd. simpl in *.
  exists (objects m1), more, d_loop. split; [by rewrite app_assoc|].
  split; [done|]. split.
  - intros key. rewrite Hd, lookup_empty.
    by destruct (last_entry key content).
  - by rewrite lookup_insert_eq.
Qed.

Lemma slice_object objs0 content more i rc :
  content !! i = Some rc →
  (objs0 ++ (Release_init <$> content) ++ more) !! (length objs0 + i)
  = Some (Release_init rc).
Proof.
  intros Hi. rewrite lookup_app_r by lia.
  replace (length objs0 + i - length objs0) with i by lia.
  rewrite lookup_app_l by (rewrite length_fmap; by eapply lookup_lt_Some).
  by rewrite list_lookup_fmap, Hi.
Qed.

(** ** request_handler *)

Lemma request_handler_resolve m i :
  well_formed m →
  request_handler m i =
  match resolve m i with
  | Some url => HTTPFound url
  | None => HTTPNotFound
  end.
Proof.
  intros [Hrefs Hobjs]. unfold request_handler, resolve, url_at.
  destruct (entries m !! repository i) as [d|] eqn:Hd; simpl; [|done].
  destruct (d !! version i) as [ref|] eqn:Href; simpl; [|done].
  destruct (objects m !! ref) as [rel|] eqn:Hrel; simpl.
  2:{ apply lookup_ge_None in Hrel. pose proof (Hrefs _ _ _ _ Hd Href). lia. }
  destruct (rel !! architecture i) as [ad|] eqn:Ha; simpl; [|done].
  destruct (ad !! vendor i) as [vd|] eqn:Hv; simpl; [|done].
  destruct (vd !! file i) as [url|] eqn:Hu; simpl; [|done].
  destruct (Hobjs _ _ Hrel) as [rc ->].
  destruct (Release_init_urls rc (architecture i) (vendor i) (file i) url)
    as [Ht _].
  { unfold url_at. rewrite Ha. simpl. rewrite Hv. done. }
  unfold redirect. rewrite decide_False; [done|]. by apply trusted_nonempty.
Qed.

Lemma complete_wf m : complete m → well_formed m.
Proof.
  intros [->|[fetch Hm]]; [apply well_formed_empty|by eapply create_map_wf].
Qed.

(** ** The classifier *)

(** C1: every URL stored at an (architecture, vendor, target) triple of a
    [Release] built by [Release.__init__] starts with one of the allowed
    prefixes and is the download URL of an asset of the release; so the
    download URL of an asset is a value of the result only if it starts
    with an allowed prefix, whatever the asset's filename. *)
Theorem Release_urls_allowed rc arch vend target url :
  url_at (Release_init rc) arch vend target = Some url →
  (∃ prefix, prefix ∈ ALLOWED_PREFIXES ∧ Str.startswith url prefix = true)
  ∧ ∃ a, a ∈ assets rc ∧ browser_download_url a = url.
Proof.
  intros [Ht Ha]%Release_init_urls. split; [by apply trusted_prefix|done].
Qed.

(** C3: the three patterns are tried in the order rootfs, adaptation,
    feature, and the result for an asset is that of the first pattern
    that matches, or nothing when none does; so [Release.__init__], which
    goes through the whole list for every asset, computes what a
    first-match-wins evaluation computes. *)
Theorem first_match_wins :
  (∀ filename,
     first_match PATTERNS filename =
     match re_match DROIDIAN_ROOTFS filename with
     | Some gdict => Some gdict
     | None =>
         match re_match DROIDIAN_ADAPTATION filename with
         | Some gdict => Some gdict
         | None => re_match DROIDIAN_FEATURE filename
         end
     end)
  ∧ (∀ self a,
       classify_asset self a =
       match first_match PATTERNS (name a) with
       | Some gdict => store_match a self gdict
       | None => self
       end)
  ∧ (∀ self a, classify_asset self a = classify_asset_first_match self a)
  ∧ (∀ rc, Release_init rc = Release_first_match rc).
Proof.
  split; [|split; [|split]].
  - intros f. simpl. destruct (re_match DROIDIAN_ROOTFS f); [done|].
    destruct (re_match DROIDIAN_ADAPTATION f); [done|].
    by destruct (re_match DROIDIAN_FEATURE f).
  - apply classify_asset_first.
  - intros self a. apply classify_asset_first.
  - intros rc. unfold Release_init, Release_first_match.
    generalize (∅ : Release). induction (assets rc) as [|a l IH]; [done|].
    intros self. simpl. rewrite IH. f_equal. apply classify_asset_first.
Qed.

(** ** The redirect handler *)

(** C2: on a published mapping, the handler answers with a redirect to the
    stored URL when every level of
    [mapping[repository][version][architecture][vendor][file]] is there,
    with not-found when a level is missing, and with nothing else. *)
Theorem request_handler_resolves m i :
  complete m →
  request_handler m i =
    match resolve m i with
    | Some url => HTTPFound url
    | None => HTTPNotFound
    end
  ∧ (∀ repo_dict ref rel arch_dict vendor_dict url,
       entries m !! repository i = Some repo_dict →
       repo_dict !! version i = Some ref →
       objects m !! ref = Some rel →
       rel !! architecture i = Some arch_dict →
       arch_dict !! vendor i = Some vendor_dict →
       vendor_dict !! file i = Some url →
       request_handler m i = HTTPFound url)
  ∧ (resolve m i = None → request_handler m i = HTTPNotFound)
  ∧ ∀ e, request_handler m i ≠ Unhandled e.
Proof.
  intros Hm%complete_wf. pose proof (request_handler_resolve m i Hm) as Heq.
  split; [done|]. split; [|split].
  - intros * H1 H2 H3 H4 H5 H6. rewrite Heq. unfold resolve, url_at.
    rewrite H1. simpl. rewrite H2. simpl. rewrite H3. simpl.
    rewrite H4. simpl. rewrite H5. simpl. by rewrite H6.
  - intros Hn. by rewrite Heq, Hn.
  - intros e. rewrite Heq. by destruct (resolve m i).
Qed.

(** ** A failed fetch *)

Lemma request_handler_empty_slice m i :
  entries m !! repository i = Some ∅ → request_handler m i = HTTPNotFound.
Proof.
  intros H. unfold request_handler. rewrite H. by rewrite lookup_empty.
Qed.

Lemma create_map_from_failed fetch r todo acc resp :
  fetch (GITHUB_PATTERN r) = Got resp → failed_response resp →
  create_map_from fetch (r :: todo) acc
  = create_map_from fetch todo
      (MkMapping (objects acc) (setdefault (short_name r) ∅ (entries acc)).2).
Proof.
  intros Hf Hr. simpl. by rewrite (process_repository_failed _ _ _ _ Hf Hr).
Qed.

(** X24: when the fetch of a repository is answered with a status other
    than 200, or with a Content-Type header that does not list
    [application/json], the mapping built in that cycle has nothing under
    that repository: its release map is empty.  The mapping published
    after the cycle is the new one whatever the previous one held, so
    every request under the repository is answered not-found; and the
    loop over the repositories goes on after the failed one. *)
Theorem failed_fetch_empty_slice fetch m r resp :
  NoDup (short_name <$> IMAGES_REPOSITORIES) → r ∈ IMAGES_REPOSITORIES →
  fetch (GITHUB_PATTERN r) = Got resp → failed_response resp →
  create_map fetch = Ok m →
  entries m !! short_name r = Some ∅
  ∧ (∀ prior, create_map_loop [fetch] prior = (m, None))
  ∧ (∀ prior i, repository i = short_name r →
                request_handler (create_map_loop [fetch] prior).1 i
                = HTTPNotFound)
  ∧ (∀ todo acc,
       create_map_from fetch (r :: todo) acc
       = create_map_from fetch todo
           (MkMapping (objects acc)
                      (setdefault (short_name r) ∅ (entries acc)).2)).
Proof.
  intros Hnd Hr Hf Hresp Hm.
  pose proof (slice_failed _ _ _ _ Hnd Hr Hm Hf Hresp) as Hs.
  assert (Hloop : ∀ prior, create_map_loop [fetch] prior = (m, None)).
  { intros prior. simpl. by rewrite Hm. }
  split; [done|]. split; [done|]. split.
  - intros prior i Hi. rewrite Hloop. simpl.
    apply request_handler_empty_slice. by rewrite Hi.
  - intros. by eapply create_map_from_failed.
Qed.

(** ** Assets that match but are not trusted *)

Lemma first_match_unique regex filename g :
  regex ∈ PATTERNS → re_match regex filename = Some g →
  first_match PATTERNS filename = Some g.
Proof.
  intros Hin Hm. simpl.
  destruct (re_match DROIDIAN_ROOTFS filename) as [g1|] eqn:H1.
  { assert (Heq : regex = DROIDIAN_ROOTFS).
    { eapply at_most_one_pattern; eauto. by left. }
    subst. congruence. }
  destruct (re_match DROIDIAN_ADAPTATION filename) as [g2|] eqn:H2.
  { assert (Heq : regex = DROIDIAN_ADAPTATION).
    { eapply at_most_one_pattern; eauto. right. by left. }
    subst. congruence. }
  unfold PATTERNS in Hin. rewrite !elem_of_cons, elem_of_nil in Hin.
  destruct Hin as [->|[->|[->|[]]]]; [congruence..|by rewrite Hm].
Qed.

Lemma classify_asset_matched self a regex g :
  regex ∈ PATTERNS → re_match regex (name a) = Some g →
  classify_asset self a = store_match a self g.
Proof.
  intros Hin Hm.
  by rewrite classify_asset_first, (first_match_unique _ _ _ Hin Hm).
Qed.

Lemma fold_classify_has_vendor l self x y :
  has_vendor self x y → has_vendor (fold_left classify_asset l self) x y.
Proof.
  intros H. apply fold_classify_ind; [done|].
  intros. by apply has_vendor_store_match_mono.
Qed.

Lemma Release_init_has_vendor rc a regex g :
  a ∈ assets rc → regex ∈ PATTERNS → re_match regex (name a) = Some g →
  has_vendor (Release_init rc) (arch_key g) (vendor_key g).
Proof.
  intros (pre & post & Heq)%list_elem_of_split Hin Hm.
  unfold Release_init. rewrite Heq, fold_left_app. simpl.
  apply fold_classify_has_vendor.
  rewrite (classify_asset_matched _ _ _ _ Hin Hm).
  apply has_vendor_store_match.
Qed.

Lemma has_vendor_nonempty rel x y : has_vendor rel x y → rel ≠ ∅.
Proof.
  intros [vd H] ->. by rewrite lookup_empty in H.
Qed.

Lemma request_handler_no_urls mapping i d ref rel :
  entries mapping !! repository i = Some d →
  d !! version i = Some ref →
  objects mapping !! ref = Some rel →
  (∀ x y z, url_at rel x y z = None) →
  request_handler mapping i = HTTPNotFound.
Proof.
  intros Hd Href Hrel Hno. unfold request_handler.
  rewrite Hd, Href, Hrel.
  specialize (Hno (architecture i) (vendor i) (file i)). unfold url_at in Hno.
  destruct (rel !! architecture i) as [ad|]; simpl in Hno; [|done].
  destruct (ad !! vendor i) as [vd|]; simpl in Hno; [|done].
  by rewrite Hno.
Qed.


(** ** The release map of a repository that was fetched *)


Section Cycle.

Variable fetch : string → fetched.
Variable m : Mapping.
Variable r : string.
Variable resp : response.
Variable content : list release_contents.

Hypothesis distinct_short_names : NoDup (short_name <$> IMAGES_REPOSITORIES).
Hypothesis configured : r ∈ IMAGES_REPOSITORIES.
Hypothesis built : create_map fetch = Ok m.
Hypothesis answered : fetch (GITHUB_PATTERN r) = Got resp.
Hypothesis listed : release_list resp content.

Lemma slice_entry pre rc post :
  content = pre ++ rc :: post → published rc →
  Forall (λ rc', slug rc' = slug rc → ¬ published rc') post →
  slug rc ≠ STABLE_LATEST →
  ∃ d ref, entries m !! short_name r = Some d
           ∧ d !! slug rc = Some ref
           ∧ objects m !! ref = Some (Release_init rc).
Proof.
  intros Hc Hpub Hpost Hne.
  destruct (slice_list _ _ _ _ _ distinct_short_names configured built
              answered listed) as (objs0 & more & d_loop & Hobjs & _ & Hd & He).
  eexists. exists (length objs0 + length pre). split; [exact He|].
  assert (Hl : d_loop !! slug rc = Some (length objs0 + length pre))
    by (by rewrite Hd, Hc, last_entry_here).
  split.
  - destruct (s ← first_stable content; d_loop !! s); [|done].
    by rewrite lookup_insert_ne.
  - rewrite Hobjs. apply slice_object. rewrite Hc. by apply list_lookup_middle.
Qed.


(** C6, amended: a release gets an entry only if its [Release] is not
    empty.  A published release whose slug is not the alias name, and is
    not the slug of a later published release, has its [Release] under its
    slug; and every entry of the release map holds the non-empty [Release]
    of a release of the list. *)
Theorem published_release_entry :
  ∃ d, entries m !! short_name r = Some d
    ∧ (∀ pre rc post,
         content = pre ++ rc :: post → published rc →
         Forall (λ rc', slug rc' = slug rc → ¬ published rc') post →
         slug rc ≠ STABLE_LATEST →
         ∃ ref, d !! slug rc = Some ref
                ∧ objects m !! ref = Some (Release_init rc))
    ∧ (∀ key ref,
         d !! key = Some ref →
         ∃ rc, rc ∈ content ∧ published rc
               ∧ objects m !! ref = Some (Release_init rc)).
Proof.
  destruct (slice_list _ _ _ _ _ distinct_short_names configured built
              answered listed) as (objs0 & more & d_loop & Hobjs & _ & Hd & He).
  assert (Hloop : ∀ key ref, d_loop !! key = Some ref →
            ∃ rc, rc ∈ content ∧ published rc
                  ∧ objects m !! ref = Some (Release_init rc)).
  { intros key ref. rewrite Hd.
    destruct (last_entry key content) as [i|] eqn:Hi; [|done].
    intros [= <-]. destruct (last_entry_Some _ _ _ Hi) as (rc & Hrc & _ & Hpub).
    exists rc. split; [by eapply list_elem_of_lookup_2|]. split; [done|].
    rewrite Hobjs. by apply slice_object. }
  eexists. split; [exact He|]. split.
  - intros pre rc post Hc Hpub Hpost Hne.
    destruct (slice_entry _ _ _ Hc Hpub Hpost Hne) as (d & ref & Hd' & ? & ?).
    rewrite He in Hd'. injection Hd' as <-. by exists ref.
  - intros key ref.
    destruct (first_stable content) as [s|]; simpl; [|apply Hloop].
    destruct (d_loop !! s) as [x|] eqn:Hx; [|apply Hloop].
    rewrite lookup_insert. case_decide; [|apply Hloop].
    intros [= <-]. by eapply Hloop.
Qed.

(** C10: the alias is assigned once the loop over the releases is over,
    and it is given the reference that the stable candidate's slug holds
    then: afterwards both keys hold the same [Release] object.  If the
    loop had stored an entry under the alias name itself, for a release
    whose slug is that name, the assignment replaces it. *)
Theorem alias_shares_reference s :
  first_stable content = Some s →
  ∃ objs0 d_loop ref,
    fold_left add_release content (objs0, ∅, None)
    = (objs0 ++ (Release_init <$> content), d_loop, Some s)
    ∧ d_loop !! s = Some ref
    ∧ add_alias d_loop (Some s) = Ok (<[STABLE_LATEST := ref]> d_loop)
    ∧ entries m !! short_name r = Some (<[STABLE_LATEST := ref]> d_loop)
    ∧ <[STABLE_LATEST := ref]> d_loop !! STABLE_LATEST = Some ref
    ∧ <[STABLE_LATEST := ref]> d_loop !! s = Some ref
    ∧ (∀ key, key ≠ STABLE_LATEST →
              <[STABLE_LATEST := ref]> d_loop !! key = d_loop !! key)
    ∧ (∀ rc, rc ∈ content → slug rc = STABLE_LATEST → published rc →
             ∃ own, d_loop !! STABLE_LATEST = Some own).
Proof.
  intros Hfs.
  destruct (slice_list _ _ _ _ _ distinct_short_names configured built
              answered listed) as (objs0 & more & d_loop & _ & Hfold & Hd & He).
  destruct (first_stable_entry _ _ Hfs) as [i Hi].
  rewrite Hfs in Hfold, He. simpl in He. rewrite Hd, Hi in He. simpl in He.
  exists objs0, d_loop, (length objs0 + i).
  assert (Hs : d_loop !! s = Some (length objs0 + i)) by by rewrite Hd, Hi.
  split; [done|]. split; [done|].
  split; [unfold add_alias; by rewrite Hs|]. split; [done|].
  split; [by rewrite lookup_insert_eq|]. split.
  { rewrite lookup_insert. by case_decide. }
  split; [intros key Hk; by rewrite lookup_insert_ne|].
  intros rc Hrc Hslug Hpub. rewrite Hd.
  destruct (last_entry STABLE_LATEST content) as [j|] eqn:Hj; [by eexists|].
  exfalso. apply list_elem_of_split in Hrc as (pre & post & ->).
  clear -Hj Hslug Hpub. induction pre as [|rc' pre IH]; simpl in Hj.
  - destruct (last_entry STABLE_LATEST post); [done|].
    by rewrite decide_True in Hj.
  - destruct (last_entry STABLE_LATEST (pre ++ rc :: post)); [done|].
    by apply IH.
Qed.

End Cycle.

(** C9: for an asset whose filename matches a pattern and whose URL is
    not trusted, [Release.__init__] still puts the architecture key and,
    under it, the vendor key in the [Release], bound to the dictionaries
    already there or to empty ones, and stores no URL.  A release with
    such an asset, all of whose matching assets are untrusted, has a
    non-empty [Release] with these levels and no URL; it gets an entry in
    the release map, and every request under that entry is answered
    not-found. *)
Theorem untrusted_asset_levels rc a regex g :
  a ∈ assets rc → regex ∈ PATTERNS → re_match regex (name a) = Some g →
  (∀ a' regex' g', a' ∈ assets rc → regex' ∈ PATTERNS →
                   re_match regex' (name a') = Some g' →
                   trusted (browser_download_url a') = false) →
  (∀ self,
     classify_asset self a =
     let arch_dict := default ∅ (self !! arch_key g) in
     <[arch_key g :=
         <[vendor_key g := default ∅ (arch_dict !! vendor_key g)]> arch_dict]>
       self)
  ∧ classify_asset ∅ a = {[ arch_key g := {[ vendor_key g := ∅ ]} ]}
  ∧ Release_init rc ≠ ∅
  ∧ has_vendor (Release_init rc) (arch_key g) (vendor_key g)
  ∧ (∀ x y z, url_at (Release_init rc) x y z = None)
  ∧ (∀ objs d ls,
       ∃ ls', add_release (objs, d, ls) rc
              = (objs ++ [Release_init rc], <[slug rc := length objs]> d, ls'))
  ∧ (∀ fetch m r resp pre post,
       NoDup (short_name <$> IMAGES_REPOSITORIES) → r ∈ IMAGES_REPOSITORIES →
       create_map fetch = Ok m →
       fetch (GITHUB_PATTERN r) = Got resp →
       release_list resp (pre ++ rc :: post) →
       Forall (λ rc', slug rc' = slug rc → ¬ published rc') post →
       slug rc ≠ STABLE_LATEST →
       (∃ d ref, entries m !! short_name r = Some d
                 ∧ d !! slug rc = Some ref
                 ∧ objects m !! ref = Some (Release_init rc))
       ∧ ∀ i, repository i = short_name r → version i = slug rc →
              request_handler m i = HTTPNotFound).
Proof.
  intros Ha Hin Hm Hun.
  assert (Hv : has_vendor (Release_init rc) (arch_key g) (vendor_key g))
    by by eapply Release_init_has_vendor.
  assert (Hpub : published rc) by by eapply has_vendor_nonempty.
  assert (Hno : ∀ x y z, url_at (Release_init rc) x y z = None).
  { apply Release_init_ind; [apply url_at_empty|].
    intros self a' regex' g' Ha' Hin' Hm' IH x y z.
    rewrite url_at_store_match, decide_False; [apply IH|].
    intros (_ & _ & _ & Ht). by rewrite (Hun _ _ _ Ha' Hin' Hm') in Ht. }
  assert (Hstep : ∀ self,
     classify_asset self a =
     let arch_dict := default ∅ (self !! arch_key g) in
     <[arch_key g :=
         <[vendor_key g := default ∅ (arch_dict !! vendor_key g)]> arch_dict]>
       self).
  { intros self. rewrite (classify_asset_matched _ _ _ _ Hin Hm).
    rewrite store_match_eq. by rewrite (Hun _ _ _ Ha Hin Hm). }
  split; [done|]. split.
  { rewrite Hstep. simpl. by rewrite !lookup_empty. }
  split; [done|]. split; [done|]. split; [done|]. split.
  { intros objs d ls. unfold add_release. fold (slug rc).
    rewrite decide_False by done. by eexists. }
  intros fetch m r resp pre post Hnd Hr Hb Hf Hl Hpost Hne.
  destruct (slice_entry fetch m r resp _ Hnd Hr Hb Hf Hl pre rc post
              eq_refl Hpub Hpost Hne) as (d & ref & Hd & Href & Hobj).
  split; [by exists d, ref|].
  intros i Hi Hver. eapply request_handler_no_urls; [| | |exact Hno].
  - by rewrite Hi.
  - by rewrite Hver.
  - done.
Qed.

(** ** The refresh loop *)

Lemma process_repository_total fetch acc r resp :
  fetch (GITHUB_PATTERN r) = Got resp →
  failed_response resp ∨ (∃ content, release_list resp content) →
  ∃ acc', process_repository fetch acc r = Ok acc'.
Proof.
  intros Hf [Hr|[content Hr]].
  - rewrite (process_repository_failed _ _ _ _ Hf Hr). by eexists.
  - destruct (process_repository_list fetch acc r _ _ Hf Hr)
      as (d_loop & ref & _ & _ & _ & _ & ->). by eexists.
Qed.

Lemma create_map_from_total fetch todo acc :
  (∀ r, r ∈ todo →
        ∃ resp, fetch (GITHUB_PATTERN r) = Got resp
                ∧ (failed_response resp ∨ ∃ content, release_list resp content)) →
  ∃ m, create_map_from fetch todo acc = Ok m.
Proof.
  revert acc. induction todo as [|r todo IH]; intros acc Hall; simpl.
  - by eexists.
  - destruct (Hall r) as (resp & Hf & Hr); [by left|].
    destruct (process_repository_total fetch acc r resp Hf Hr) as [acc' ->].
    simpl. apply IH. intros. apply Hall. by right.
Qed.

Lemma create_map_from_no_response fetch todo acc r :
  r ∈ todo → fetch (GITHUB_PATTERN r) = NoResponse →
  ∃ e, create_map_from fetch todo acc = Raise e.
Proof.
  revert acc. induction todo as [|r' todo IH]; intros acc Hin Hf.
  - by apply elem_of_nil in Hin.
  - simpl. destruct (process_repository fetch acc r') as [acc'|e] eqn:Hp.
    + simpl. apply IH; [|done]. apply elem_of_cons in Hin as [->|?]; [|done].
      unfold process_repository in Hp. by rewrite Hf in Hp.
    + by exists e.
Qed.

(** C7, amended: a response with a status other than 200, or with a
    Content-Type header that does not list [application/json], ends
    neither the loop over the repositories nor the refresh loop: as long
    as every fetch is answered by such a response or by a release list,
    the task is still looping after any number of cycles, and
    [self.mapping] is the result of the last one.  A fetch that raises
    instead of answering is not caught: it ends the task, and
    [self.mapping] keeps the value it had. *)
Theorem loop_survives_failed_responses cycles self_mapping :
  (∀ fetch, fetch ∈ cycles → answers fetch) →
  (∃ m, create_map_loop cycles self_mapping = (m, None)
        ∧ (cycles = [] → m = self_mapping)
        ∧ ∀ fetch, last cycles = Some fetch → create_map fetch = Ok m)
  ∧ (∀ fetch r resp todo acc,
       fetch (GITHUB_PATTERN r) = Got resp → failed_response resp →
       create_map_from fetch (r :: todo) acc
       = create_map_from fetch todo
           (MkMapping (objects acc)
                      (setdefault (short_name r) ∅ (entries acc)).2))
  ∧ (∀ fetch later r,
       r ∈ IMAGES_REPOSITORIES → fetch (GITHUB_PATTERN r) = NoResponse →
       ∃ e, create_map_loop (fetch :: later) self_mapping
            = (self_mapping, Some e)).
Proof.
  intros Hall. split; [|split].
  - revert self_mapping Hall.
    induction cycles as [|fetch later IH]; intros self_mapping Hall.
    { exists self_mapping. by simpl. }
    simpl. destruct (create_map_from_total fetch IMAGES_REPOSITORIES empty_mapping)
      as [m1 Hm1]; [apply Hall; by left|].
    unfold create_map at 1. rewrite Hm1.
    destruct (IH m1) as (m & Hloop & Hnil & Hlast).
    { intros. apply Hall. by right. }
    exists m. split; [done|]. split; [done|].
    intros fetch'. destruct later as [|fetch2 later'].
    + simpl. intros [= <-]. simpl in Hloop. injection Hloop as <-. done.
    + rewrite last_cons_cons. apply Hlast.
  - intros. by eapply create_map_from_failed.
  - intros fetch later r Hr Hf. simpl.
    destruct (create_map_from_no_response fetch IMAGES_REPOSITORIES
                empty_mapping r Hr Hf) as [e He].
    unfold create_map. rewrite He. by exists e.
Qed.

(** ** Requests during a refresh *)

Lemma step_invariant a ev a' :
  step a ev a' →
  complete (mapping a) ∧ task_invariant (map_task a) →
  complete (mapping a') ∧ task_invariant (map_task a').
Proof.
  intros Hstep [Hc Ht]. destruct Hstep; simpl in *.
  - split; [done|]. rewrite <- Ht. by rewrite H.
  - done.
  - split; [|done]. right. by exists fetch.
  - done.
  - done.
Qed.

Lemma reachable_invariant a :
  reachable a → complete (mapping a) ∧ task_invariant (map_task a).
Proof.
  induction 1 as [fetch|a ev a' _ IH Hstep].
  - split; [by left|done].
  - by eapply step_invariant.
Qed.

(** C8: a request is served in one step of the event loop, from the
    mapping that is published at that moment, and that mapping is a whole
    result of [create_map] (or the initial empty one), never one under
    construction; a step of the refresh task leaves the published
    mapping as it is or replaces it by the whole result of its cycle. *)
Theorem request_sees_one_snapshot a :
  reachable a →
  complete (mapping a)
  ∧ (∀ i o a', step a (Request i o) a' →
               a' = a ∧ o = request_handler (mapping a) i)
  ∧ (∀ a', step a Refresh a' →
           mapping a' = mapping a
           ∨ ∃ fetch, create_map fetch = Ok (mapping a')
                      ∧ map_task a = Fetching fetch [] (mapping a')).
Proof.
  intros Hr. destruct (reachable_invariant a Hr) as [Hc Ht].
  split; [done|]. split.
  - intros i o a' Hstep. by inversion Hstep.
  - intros a' Hstep. inversion Hstep; subst; simpl in *; auto.
    right. by exists fetch.
Qed.

(** ** slugify and short names *)

Lemma sub_not_allowed_chars b s :
  Str.all_chars slug_char (sub_not_allowed b s) = true.
Proof.
  revert b. induction s as [|c s IH]; intros b; simpl; [done|].
  destruct (not_allowed c) eqn:Hc.
  - destruct b; simpl; by rewrite ?IH.
  - simpl. unfold slug_char at 1. rewrite Hc. simpl. apply IH.
Qed.

Lemma slug_char_lower c : slug_char c = true → Str.lower_char c = c.
Proof.
  destruct c as [[] [] [] [] [] [] [] []]; vm_compute; congruence.
Qed.

Lemma lower_slug_chars s :
  Str.all_chars slug_char s = true → Str.lower s = s.
Proof.
  induction s as [|c s IH]; simpl; [done|].
  intros [Hc Hs]%andb_prop. by rewrite (slug_char_lower c Hc), IH.
Qed.

Lemma sub_not_allowed_again s :
  sub_not_allowed false (sub_not_allowed false s) = sub_not_allowed false s
  ∧ sub_not_allowed true (sub_not_allowed true s) = sub_not_allowed true s
  ∧ sub_not_allowed false (sub_not_allowed true s) = sub_not_allowed true s.
Proof.
  induction s as [|c s (IH1 & IH2 & IH3)]; simpl; [done|].
  destruct (not_allowed c) eqn:Hc; simpl.
  - by rewrite IH2, IH3.
  - by rewrite Hc, IH1.
Qed.

Lemma sub_not_allowed_dashes b s :
  Str.contains "--" (sub_not_allowed b s) = false
  ∧ (b = true → Str.startswith (sub_not_allowed b s) "-" = false).
Proof.
  revert b. induction s as [|c s IH]; intros b; simpl; [done|].
  destruct (not_allowed c) eqn:Hc.
  - destruct b; [apply IH|].
    destruct (IH true) as [H1 H2]. split; [|done].
    change (Str.contains "--" (String "-" (sub_not_allowed true s)))
      with (Str.startswith (sub_not_allowed true s) "-"
            || Str.contains "--" (sub_not_allowed true s)).
    by rewrite H1, H2.
  - destruct (IH false) as [H1 _].
    assert (Hd : c ≠ "-"%char) by (intros ->; vm_compute in Hc; done).
    split.
    + change (Str.contains "--" (String c (sub_not_allowed false s)))
        with ((if decide ("-"%char = c)
               then Str.startswith (sub_not_allowed false s) "-" else false)
              || Str.contains "--" (sub_not_allowed false s)).
      rewrite H1. by rewrite decide_False.
    + intros _. simpl. by rewrite decide_False.
Qed.

(** X1: a slug holds only characters of [[a-z0-9_]] and dashes. *)
Theorem slugify_chars s : Str.all_chars slug_char (slugify s) = true.
Proof. apply sub_not_allowed_chars. Qed.

(** X2: a slug never holds two dashes in a row, whatever the runs of
    other characters in the tag name. *)
Theorem slugify_single_dashes s : Str.contains "--" (slugify s) = false.
Proof. apply sub_not_allowed_dashes. Qed.

(** X3: slugifying a slug changes nothing. *)
Theorem slugify_idempotent s : slugify (slugify s) = slugify s.
Proof.
  unfold slugify at 1. rewrite (lower_slug_chars (slugify s)).
  - apply sub_not_allowed_again.
  - apply sub_not_allowed_chars.
Qed.

Lemma lower_app s t : Str.lower (s +:+ t) = Str.lower s +:+ Str.lower t.
Proof. induction s as [|c s IH]; simpl; [done|]. by rewrite IH. Qed.

Lemma startswith_app p rest : Str.startswith (p +:+ rest) p = true.
Proof.
  induction p as [|c p IH]; simpl; [by destruct rest|].
  by rewrite decide_True.
Qed.

Lemma startswith_inv s p :
  Str.startswith s p = true → ∃ rest, s = p +:+ rest.
Proof.
  revert s. induction p as [|c p IH]; intros s; simpl.
  - intros _. by exists s.
  - destruct s as [|c' s]; simpl; [done|].
    destruct (decide (c = c')) as [->|]; [|done].
    intros [rest ->]%IH. by exists rest.
Qed.

Lemma contains_here x rest : Str.contains x (x +:+ rest) = true.
Proof.
  destruct x; simpl; [by destruct rest|].
  by rewrite decide_True, startswith_app.
Qed.

Lemma contains_cons x c s :
  Str.contains x s = true → Str.contains x (String c s) = true.
Proof. intros H. simpl. rewrite H. apply orb_true_r. Qed.

Lemma sub_not_allowed_word b w rest :
  w ≠ EmptyString → Str.all_chars (λ c, negb (not_allowed c)) w = true →
  sub_not_allowed b (w +:+ rest) = w +:+ sub_not_allowed false rest.
Proof.
  revert b. induction w as [|c w IH]; intros b Hne; simpl; [done|].
  intros [Hc Hw]%andb_prop. apply negb_true_iff in Hc. rewrite Hc. f_equal.
  destruct w as [|c' w']; [done|]. by apply IH.
Qed.

Lemma contains_sub_not_allowed_app x b pre t :
  (∀ b', Str.contains x (sub_not_allowed b' t) = true) →
  Str.contains x (sub_not_allowed b (pre +:+ t)) = true.
Proof.
  intros Ht. revert b. induction pre as [|c pre IH]; intros b; simpl; [done|].
  destruct (not_allowed c); [destruct b|]; auto using contains_cons.
Qed.

(** X4: the "nightly" test is blind to letter case: a release whose tag
    name holds the word in any mix of cases has it in its slug, and never
    becomes the stable candidate. *)
Theorem nightly_any_case pre w post rc objs d :
  Str.lower w = "nightly" → tag_name rc = pre +:+ w +:+ post →
  Str.contains "nightly" (slugify (tag_name rc)) = true
  ∧ (add_release (objs, d, None) rc).2 = None.
Proof.
  intros Hw Htag.
  assert (Hc : Str.contains "nightly" (slugify (tag_name rc)) = true).
  { rewrite Htag. unfold slugify. rewrite !lower_app, Hw.
    apply contains_sub_not_allowed_app. intros b'.
    rewrite sub_not_allowed_word by done. apply contains_here. }
  split; [done|]. unfold add_release. rewrite Hc.
  by destruct (decide (Release_init rc = ∅)).
Qed.

Lemma split_from_no_sep sep cur s :
  Str.all_chars (λ c, negb (bool_decide (c = sep))) s = true →
  Str.split_from sep cur s = [cur +:+ s].
Proof.
  revert cur. induction s as [|c s IH]; intros cur; simpl.
  - intros _. f_equal. induction cur as [|? ? IHc]; simpl; [done|].
    by rewrite <- IHc.
  - intros [Hc Hs]%andb_prop. apply negb_true_iff, bool_decide_eq_false in Hc.
    rewrite decide_False by done. rewrite IH by done. f_equal.
    clear. induction cur as [|? ? IHc]; simpl; [done|]. by rewrite IHc.
Qed.

Lemma split_from_nonempty sep cur s : Str.split_from sep cur s ≠ [].
Proof.
  revert cur. induction s as [|c s IH]; intros cur; simpl; [done|].
  case_decide; [done|apply IH].
Qed.

Lemma last_cons_nonempty {A} (x d : A) l :
  l ≠ [] → List.last (x :: l) d = List.last l d.
Proof. by destruct l. Qed.

Lemma last_split_from_app sep cur pre s d :
  List.last (Str.split_from sep cur (pre +:+ String sep s)) d
  = List.last (Str.split_from sep EmptyString s) d.
Proof.
  revert cur. induction pre as [|c pre IH]; intros cur; simpl.
  - rewrite decide_True by done.
    apply last_cons_nonempty, split_from_nonempty.
  - case_decide; [|apply IH].
    rewrite last_cons_nonempty by apply split_from_nonempty. apply IH.
Qed.

Lemma split_from_segments sep cur s :
  Str.all_chars (λ c, negb (bool_decide (c = sep))) cur = true →
  Forall (λ seg, Str.all_chars (λ c, negb (bool_decide (c = sep))) seg = true)
         (Str.split_from sep cur s).
Proof.
  revert cur. induction s as [|c s IH]; intros cur Hcur; simpl.
  - by apply Forall_singleton.
  - case_decide as Hc.
    + apply Forall_cons. split; [done|]. by apply IH.
    + apply IH. rewrite all_chars_app, Hcur. simpl.
      by rewrite bool_decide_eq_false_2.
Qed.

(** X5: the short name of [owner/name] is [name]: the text after the last
    slash. *)
Theorem short_name_last_segment owner repo_name :
  Str.all_chars not_slash repo_name = true →
  short_name (owner +:+ "/" +:+ repo_name) = repo_name.
Proof.
  intros H. unfold short_name, Str.split.
  rewrite (last_split_from_app "/" EmptyString owner repo_name).
  by rewrite split_from_no_sep.
Qed.

(** X6: a short name holds no slash, so it fits one path segment of the
    route. *)
Theorem short_name_no_slash r : Str.all_chars not_slash (short_name r) = true.
Proof.
  unfold short_name, Str.split.
  pose proof (split_from_segments "/" EmptyString r eq_refl) as Hall.
  pose proof (split_from_nonempty "/" EmptyString r) as Hne.
  induction Hall as [|seg l Hseg Hl IH]; [done|].
  destruct l as [|seg' l']; [done|]. by apply IH.
Qed.

(** ** The patterns and the classifier, further *)

Lemma strip_prefix_app l s : Str.strip_prefix l (l +:+ s) = Some s.
Proof.
  induction l as [|c l IH]; simpl; [done|]. by rewrite decide_True.
Qed.

Lemma greedy_complete {R} cs m rest (k : string → string → option R) :
  m ≠ EmptyString → Str.all_chars (in_set cs) m = true →
  is_Some (k m rest) → is_Some (greedy cs (m +:+ rest) k).
Proof.
  revert k. induction m as [|c m IH]; intros k Hne; [done|]. simpl.
  intros [Hc Hm]%andb_prop Hk. rewrite Hc.
  destruct m as [|c' m'].
  - simpl. by destruct (greedy cs rest _).
  - destruct (IH (λ m0 rest0, k (String c m0) rest0)) as [x Hx]; [done..|].
    by rewrite Hx.
Qed.

Lemma match_nodes_complete r s g : accepts r s → is_Some (match_nodes r s g).
Proof.
  revert s g. induction r as [|n r IH]; intros s g; simpl; [by eexists|].
  destruct n as [l| |cs|nm cs].
  - intros (s' & -> & Hs'). rewrite strip_prefix_app. by apply IH.
  - intros (c & s' & -> & Hc & Hs'). rewrite decide_False by done. by apply IH.
  - intros (m & s' & -> & Hne & Hm & Hs'). apply greedy_complete; auto.
  - intros (m & s' & -> & Hne & Hm & Hs'). apply greedy_complete; auto.
Qed.

(** X7: [regex.match] finds a match exactly on the filenames that have
    the shape of the pattern: the literals, a non-empty run of characters
    of the set for every repetition, any character but a newline for the
    dot, and anything after the pattern. *)
Theorem re_match_iff_accepts r s : is_Some (re_match r s) ↔ accepts r s.
Proof.
  split.
  - intros [g Hg]. by eapply re_match_accepts.
  - apply match_nodes_complete.
Qed.

Lemma match_nodes_preserve r s g g' k :
  match_nodes r s g = Some g' → k ∉ group_names r → g' !! k = g !! k.
Proof.
  revert s g. induction r as [|n r IH]; intros s g; simpl.
  - by intros [= ->].
  - destruct n as [l| |cs|nm cs].
    + destruct (Str.strip_prefix l s); [|done]. apply IH.
    + destruct s; [done|]. case_decide; [done|]. apply IH.
    + intros Hm. apply greedy_sound in Hm as (m & rest & _ & _ & _ & Hm).
      by eapply IH.
    + intros Hm Hk. apply greedy_sound in Hm as (m & rest & _ & _ & _ & Hm).
      apply not_elem_of_cons in Hk as [Hne Hk].
      rewrite (IH _ _ Hm Hk). by rewrite lookup_insert_ne.
Qed.

Lemma match_nodes_group r s g g' nm cs :
  match_nodes r s g = Some g' →
  (∀ cs', NamedRepeat nm cs' ∈ r → cs' = cs) → nm ∈ group_names r →
  ∃ m, g' !! nm = Some m ∧ m ≠ EmptyString
       ∧ Str.all_chars (in_set cs) m = true.
Proof.
  revert s g. induction r as [|n r IH]; intros s g; simpl.
  - intros _ _ Hin. by apply elem_of_nil in Hin.
  - destruct n as [l| |cs0|nm0 cs0].
    + destruct (Str.strip_prefix l s); [|done]. intros Hm Hcs Hin.
      eapply IH; eauto. intros. apply Hcs. by right.
    + destruct s; [done|]. case_decide; [done|]. intros Hm Hcs Hin.
      eapply IH; eauto. intros. apply Hcs. by right.
    + intros Hm Hcs Hin.
      apply greedy_sound in Hm as (m & rest & _ & _ & _ & Hm).
      eapply IH; eauto. intros. apply Hcs. by right.
    + intros Hm Hcs Hin.
      apply greedy_sound in Hm as (m & rest & _ & Hne & Hall & Hm).
      destruct (decide (nm ∈ group_names r)) as [Hr|Hr].
      * eapply IH; eauto. intros. apply Hcs. by right.
      * apply elem_of_cons in Hin as [->|?]; [|done].
        rewrite (match_nodes_preserve _ _ _ _ _ Hm Hr), lookup_insert_eq.
        rewrite <- (Hcs cs0) by by left. by exists m.
Qed.

Local Ltac only_group H :=
  repeat (apply elem_of_cons in H as [H|H]; [by simplify_eq|]);
  by apply elem_of_nil in H.

Lemma architecture_chars regex filename g :
  regex ∈ PATTERNS → re_match regex filename = Some g →
  arch_key g ≠ EmptyString
  ∧ Str.all_chars (in_set lower_alnum) (arch_key g) = true.
Proof.
  intros Hin Hm.
  assert (∃ m, g !! "architecture" = Some m ∧ m ≠ EmptyString
               ∧ Str.all_chars (in_set lower_alnum) m = true) as (m & Hg & ? & ?).
  { unfold PATTERNS in Hin. rewrite !elem_of_cons, elem_of_nil in Hin.
    destruct Hin as [->|[->|[->|[]]]].
    - eapply match_nodes_group; [exact Hm| |by left].
      intros cs' H. unfold DROIDIAN_ROOTFS in H. only_group H.
    - eapply match_nodes_group; [exact Hm| |do 2 right; by left].
      intros cs' H. unfold DROIDIAN_ADAPTATION in H. only_group H.
    - eapply match_nodes_group; [exact Hm| |right; by left].
      intros cs' H. unfold DROIDIAN_FEATURE in H. only_group H. }
  unfold arch_key. rewrite lookup_total_alt, Hg. by simpl.
Qed.

Lemma vendor_chars regex filename g :
  regex ∈ PATTERNS → re_match regex filename = Some g →
  vendor_key g ≠ EmptyString
  ∧ Str.all_chars (in_set alnum) (vendor_key g) = true.
Proof.
  intros Hin Hm. unfold PATTERNS in Hin.
  rewrite !elem_of_cons, elem_of_nil in Hin.
  destruct Hin as [->|[->|[->|[]]]].
  - apply rootfs_classification in Hm as (_ & -> & _). done.
  - assert (∃ m, g !! "vendor" = Some m ∧ m ≠ EmptyString
                 ∧ Str.all_chars (in_set alnum) m = true) as (m & Hg & ? & ?).
    { eapply match_nodes_group; [exact Hm| |by left].
      intros cs' H. unfold DROIDIAN_ADAPTATION in H. only_group H. }
    unfold vendor_key. rewrite Hg. by simpl.
  - apply feature_classification in Hm as (_ & f & _ & -> & _). done.
Qed.

Lemma first_match_Some patterns filename g :
  first_match patterns filename = Some g →
  ∃ regex, regex ∈ patterns ∧ re_match regex filename = Some g.
Proof.
  induction patterns as [|regex l IH]; simpl; [done|].
  destruct (re_match regex filename) as [g'|] eqn:Hm.
  - intros [= <-]. exists regex. split; [by left|done].
  - intros (regex' & ? & ?)%IH. exists regex'. split; [by right|done].
Qed.

(** X8: every URL of a [Release] stands where the filename of the asset it
    comes from puts it: the asset is trusted, its filename matches a
    pattern, and the architecture, vendor and target keys are the ones
    computed from that match. *)
Theorem Release_urls_origin rc x y z url :
  url_at (Release_init rc) x y z = Some url →
  ∃ a regex g,
    a ∈ assets rc ∧ regex ∈ PATTERNS ∧ re_match regex (name a) = Some g
    ∧ x = arch_key g ∧ y = vendor_key g ∧ z = target_of g
    ∧ url = browser_download_url a
    ∧ trusted url = true.
Proof.
  revert x y z url. apply Release_init_ind.
  - intros x y z url. by rewrite url_at_empty.
  - intros self a regex g Ha Hin Hm IH x y z url.
    rewrite url_at_store_match. case_decide as Hd; [|apply IH].
    intros [= <-]. destruct Hd as (-> & -> & -> & Ht).
    by exists a, regex, g.
Qed.

Lemma last_asset_url rc pre a post regex g :
  assets rc = pre ++ a :: post →
  regex ∈ PATTERNS → re_match regex (name a) = Some g →
  trusted (browser_download_url a) = true →
  (∀ a' regex' g',
     a' ∈ post → regex' ∈ PATTERNS → re_match regex' (name a') = Some g' →
     trusted (browser_download_url a') = true →
     ¬ (arch_key g' = arch_key g ∧ vendor_key g' = vendor_key g
        ∧ target_of g' = target_of g)) →
  url_at (Release_init rc) (arch_key g) (vendor_key g) (target_of g)
  = Some (browser_download_url a).
Proof.
  intros Heq Hin Hm Ht Hpost. unfold Release_init.
  rewrite Heq, fold_left_app. simpl. apply fold_classify_ind.
  - rewrite (classify_asset_matched _ _ _ _ Hin Hm), url_at_store_match.
    by rewrite decide_True.
  - intros self a' regex' g' Ha' Hin' Hm' IH.
    rewrite url_at_store_match. case_decide as Hd; [|done].
    destruct Hd as (H1 & H2 & H3 & Ht').
    destruct (Hpost a' regex' g' Ha' Hin' Hm' Ht'). by rewrite H1, H2, H3.
Qed.

(** X9: when two trusted assets of a release fall on the same
    architecture, vendor and target, the later one wins: a trusted asset
    that matches is the one stored unless a later trusted asset of the
    list falls on the same keys. *)
Theorem last_asset_wins rc pre a post regex g :
  assets rc = pre ++ a :: post →
  regex ∈ PATTERNS → re_match regex (name a) = Some g →
  trusted (browser_download_url a) = true →
  (∀ a' regex' g',
     a' ∈ post → regex' ∈ PATTERNS → re_match regex' (name a') = Some g' →
     trusted (browser_download_url a') = true →
     ¬ (arch_key g' = arch_key g ∧ vendor_key g' = vendor_key g
        ∧ target_of g' = target_of g)) →
  url_at (Release_init rc) (arch_key g) (vendor_key g) (target_of g)
  = Some (browser_download_url a).
Proof. apply last_asset_url. Qed.

Lemma fold_classify_unrecognised l self :
  Forall (λ a, ¬ recognised a) l → fold_left classify_asset l self = self.
Proof.
  induction 1 as [|a l Ha _ IH]; simpl; [done|].
  rewrite classify_asset_first.
  destruct (first_match PATTERNS (name a)) eqn:Hf; [|done].
  destruct Ha. unfold recognised. rewrite Hf. by eexists.
Qed.

(** X10: a [Release] is empty, so that the release gets no entry, exactly
    when no asset of the release has a filename that matches a pattern;
    an untrusted asset that matches is enough to make it non-empty. *)
Theorem Release_empty_iff rc :
  Release_init rc = ∅ ↔ Forall (λ a, ¬ recognised a) (assets rc).
Proof.
  split.
  - intros He. apply Forall_forall. intros a Ha [g Hg].
    apply first_match_Some in Hg as (regex & Hin & Hm).
    by apply (has_vendor_nonempty _ _ _
                (Release_init_has_vendor rc a regex g Ha Hin Hm)).
  - intros H. by apply fold_classify_unrecognised.
Qed.

(** X11: the levels of a [Release] are never empty shells at the
    architecture level, and their keys come from the filenames: every
    architecture key is a non-empty word over [[a-z0-9]] and has at least
    one vendor under it; every vendor key is a non-empty word over
    [[A-Za-z0-9]]. *)
Theorem Release_levels rc arch arch_dict :
  Release_init rc !! arch = Some arch_dict →
  arch ≠ EmptyString
  ∧ Str.all_chars (in_set lower_alnum) arch = true
  ∧ arch_dict ≠ ∅
  ∧ ∀ vend vendor_dict,
      arch_dict !! vend = Some vendor_dict →
      vend ≠ EmptyString ∧ Str.all_chars (in_set alnum) vend = true.
Proof.
  revert arch arch_dict. apply Release_init_ind.
  - intros arch ad. by rewrite lookup_empty.
  - intros self a regex g Ha Hin Hm IH arch ad.
    destruct (architecture_chars _ _ _ Hin Hm) as [Ha1 Ha2].
    destruct (vendor_chars _ _ _ Hin Hm) as [Hv1 Hv2].
    rewrite store_match_eq. simpl. rewrite lookup_insert.
    case_decide as Hd; [|apply IH]. subst arch. intros [= <-].
    split; [done|]. split; [done|]. split.
    { intros He. apply (f_equal (λ m, m !! vendor_key g)) in He.
      by rewrite lookup_insert_eq, lookup_empty in He. }
    intros vend vd. rewrite lookup_insert. case_decide as Hv.
    { by subst vend. }
    destruct (self !! arch_key g) as [ad0|] eqn:Hs; simpl.
    + intros Hvd. by apply (IH _ _ Hs) in Hvd.
    + by rewrite lookup_empty.
Qed.

Lemma fold_classify_filter l self :
  fold_left classify_asset (filter recognised l) self
  = fold_left classify_asset l self.
Proof.
  revert self. induction l as [|a l IH]; intros self; [done|].
  rewrite filter_cons. simpl. destruct (decide (recognised a)) as [Hr|Hr].
  - simpl. apply IH.
  - rewrite IH. f_equal. rewrite classify_asset_first.
    destruct (first_match PATTERNS (name a)) eqn:Hf; [|done].
    destruct Hr. unfold recognised. rewrite Hf. by eexists.
Qed.

(** X12: assets whose filename matches no pattern play no part: dropping
    them from the release leaves its [Release] unchanged. *)
Theorem unrecognised_assets_ignored rc :
  Release_init (only_recognised rc) = Release_init rc.
Proof. apply fold_classify_filter. Qed.

Lemma match_nodes_parses r s g g' :
  match_nodes r s g = Some g' → parses r s g g'.
Proof.
  revert s g. induction r as [|n r IH]; intros s g; simpl.
  { by intros [= ->]. }
  destruct n as [l| |cs|nm cs].
  - destruct (Str.strip_prefix l s) as [s'|] eqn:Hl; [|done].
    intros Hm. exists s'. split; [by apply strip_prefix_Some|by apply IH].
  - destruct s as [|c s]; [done|]. case_decide; [done|].
    intros Hm. exists c, s. auto.
  - intros Hm. apply greedy_sound in Hm as (m & rest & -> & ? & ? & Hm).
    exists m, rest. auto.
  - intros Hm. apply greedy_sound in Hm as (m & rest & -> & ? & ? & Hm).
    exists m, rest. auto.
Qed.

(** X22: what each pattern makes of a filename it matches.  The filename
    reads as the literals of the pattern around its segments, and the keys
    are these segments of the filename: the architecture key is the
    architecture segment; the rootfs pattern gives the vendor "generic"
    and the target "rootfs.zip"; the adaptation pattern gives the vendor
    segment as vendor and the target "adaptation-<model segment>.zip";
    the feature pattern gives the vendor "generic" and the target
    "feature-<feature segment>.zip". *)
Theorem pattern_keys regex filename g :
  regex ∈ PATTERNS → re_match regex filename = Some g →
  (regex = DROIDIAN_ROOTFS
   ∧ ∃ base arch date c rest,
       filename = "droidian-rootfs-" +:+ base +:+ "-" +:+ arch +:+ "_"
                  +:+ date +:+ String c ("zip" +:+ rest)
       ∧ base ≠ EmptyString ∧ Str.all_chars (in_set alnum) base = true
       ∧ arch ≠ EmptyString ∧ Str.all_chars (in_set lower_alnum) arch = true
       ∧ date ≠ EmptyString ∧ Str.all_chars (in_set digits) date = true
       ∧ c ≠ newline
       ∧ arch_key g = arch ∧ vendor_key g = "generic"
       ∧ target_of g = "rootfs.zip")
  ∨ (regex = DROIDIAN_ADAPTATION
     ∧ ∃ vend model arch date c rest,
         filename = "droidian-adaptation-" +:+ vend +:+ "-" +:+ model +:+ "-"
                    +:+ arch +:+ "_" +:+ date +:+ String c ("zip" +:+ rest)
         ∧ vend ≠ EmptyString ∧ Str.all_chars (in_set alnum) vend = true
         ∧ model ≠ EmptyString
         ∧ Str.all_chars (in_set model_chars) model = true
         ∧ arch ≠ EmptyString ∧ Str.all_chars (in_set lower_alnum) arch = true
         ∧ date ≠ EmptyString ∧ Str.all_chars (in_set digits) date = true
         ∧ c ≠ newline
         ∧ arch_key g = arch ∧ vendor_key g = vend
         ∧ target_of g = "adaptation-" +:+ model +:+ ".zip")
  ∨ (regex = DROIDIAN_FEATURE
     ∧ ∃ feature arch date c rest,
         filename = "droidian-" +:+ feature +:+ "-" +:+ arch +:+ "_"
                    +:+ date +:+ String c ("zip" +:+ rest)
         ∧ feature ≠ EmptyString
         ∧ Str.all_chars (in_set alnum) feature = true
         ∧ arch ≠ EmptyString ∧ Str.all_chars (in_set lower_alnum) arch = true
         ∧ date ≠ EmptyString ∧ Str.all_chars (in_set digits) date = true
         ∧ c ≠ newline
         ∧ arch_key g = arch ∧ vendor_key g = "generic"
         ∧ target_of g = "feature-" +:+ feature +:+ ".zip").
Proof.
  unfold PATTERNS. rewrite !elem_of_cons, elem_of_nil.
  intros [->|[->|[->|[]]]] Hm; apply match_nodes_parses in Hm; simpl in Hm.
  - left. split; [done|].
    destruct Hm as (s1 & -> & base & s2 & -> & ? & ? & s3 & -> & arch & s4
                    & -> & ? & ? & s5 & -> & date & s6 & -> & ? & ? & c & s7
                    & -> & ? & rest & -> & ->).
    exists base, arch, date, c, rest.
    unfold arch_key, vendor_key, target_of.
    rewrite lookup_total_alt.
    rewrite !(lookup_insert_ne _ "date") by done.
    rewrite lookup_insert_eq, !(lookup_insert_ne _ "architecture") by done.
    rewrite !lookup_empty. simpl. by repeat split.
  - right. left. split; [done|].
    destruct Hm as (s1 & -> & vend & s2 & -> & ? & ? & s3 & -> & model & s4
                    & -> & ? & ? & s5 & -> & arch & s6 & -> & ? & ? & s7 & ->
                    & date & s8 & -> & ? & ? & c & s9 & -> & ? & rest & ->
                    & ->).
    exists vend, model, arch, date, c, rest.
    unfold arch_key, vendor_key, target_of.
    rewrite lookup_total_alt.
    rewrite !(lookup_insert_ne _ "date") by done.
    rewrite lookup_insert_eq, !(lookup_insert_ne _ "architecture") by done.
    rewrite lookup_insert_eq, !(lookup_insert_ne _ "model") by done.
    rewrite lookup_insert_eq. simpl. by repeat split.
  - do 2 right. split; [done|].
    destruct Hm as (s1 & -> & feature & s2 & -> & ? & ? & s3 & -> & arch & s4
                    & -> & ? & ? & s5 & -> & date & s6 & -> & ? & ? & c & s7
                    & -> & ? & rest & -> & ->).
    exists feature, arch, date, c, rest.
    unfold arch_key, vendor_key, target_of.
    rewrite lookup_total_alt.
    rewrite !(lookup_insert_ne _ "date") by done.
    rewrite lookup_insert_eq, !(lookup_insert_ne _ "architecture") by done.
    rewrite lookup_insert_eq, !(lookup_insert_ne _ "feature") by done.
    rewrite !lookup_empty. simpl. by repeat split.
Qed.

(** ** The catalog and the handler, further *)

Lemma string_app_assoc (s t u : string) : (s +:+ t) +:+ u = s +:+ t +:+ u.
Proof. induction s as [|c s IH]; simpl; [done|]. by rewrite IH. Qed.

(** X13: the location the handler gives to [web.HTTPFound] is a string
    that starts with [https://github.com/<repository>/] for a configured
    repository.  This bounds the string the program passes on, not what a
    path with [..] segments denotes once the framework or the client has
    normalised it. *)
Theorem location_has_allowed_prefix m i url :
  complete m → request_handler m i = HTTPFound url →
  ∃ repo rest, repo ∈ IMAGES_REPOSITORIES
               ∧ url = "https://github.com/" +:+ repo +:+ "/" +:+ rest.
Proof.
  intros Hm%complete_wf. rewrite (request_handler_resolve m i Hm).
  destruct (resolve m i) as [u|] eqn:Hr; [|done]. intros [= ->].
  unfold resolve in Hr.
  destruct (entries m !! repository i) as [d|]; simpl in Hr; [|done].
  destruct (d !! version i) as [ref|]; simpl in Hr; [|done].
  destruct (objects m !! ref) as [rel|] eqn:Hrel; simpl in Hr; [|done].
  destruct (proj2 Hm _ _ Hrel) as [rc ->].
  apply Release_init_urls in Hr as [Ht _].
  apply trusted_prefix in Ht as (p & Hp & Hs).
  unfold ALLOWED_PREFIXES in Hp. apply list_elem_of_fmap in Hp as (repo & -> & Hin).
  apply startswith_inv in Hs as [rest ->].
  exists repo, rest. split; [done|]. simpl. by rewrite string_app_assoc.
Qed.

Lemma process_repository_keys fetch m r m' key :
  process_repository fetch m r = Ok m' →
  is_Some (entries m' !! key) ↔ key = short_name r ∨ is_Some (entries m !! key).
Proof.
  intros H. destruct (process_repository_Ok _ _ _ _ H)
    as (resp & Hf & [Hr|[content Hr]]).
  - rewrite (process_repository_failed _ _ _ _ Hf Hr) in H.
    injection H as <-. simpl. rewrite setdefault_snd_lookup.
    case_decide; subst.
    + split; [auto|]. intros _. by eexists.
    + split; [auto|]. intros [?|?]; [congruence|done].
  - destruct (process_repository_list fetch m r _ _ Hf Hr)
      as (d_loop & ref & _ & _ & _ & _ & Hp).
    rewrite Hp in H. injection H as <-. simpl. rewrite lookup_insert.
    case_decide; subst.
    + split; [auto|]. intros _. by eexists.
    + split; [auto|]. intros [?|?]; [congruence|done].
Qed.

Lemma create_map_from_keys fetch todo m m' key :
  create_map_from fetch todo m = Ok m' →
  is_Some (entries m' !! key)
  ↔ key ∈ short_name <$> todo ∨ is_Some (entries m !! key).
Proof.
  revert m. induction todo as [|r todo IH]; intros m; simpl.
  - intros [= <-]. rewrite elem_of_nil. tauto.
  - destruct (process_repository fetch m r) as [m1|] eqn:Hp; [|done]. simpl.
    intros H. rewrite (IH _ H), (process_repository_keys _ _ _ _ key Hp).
    rewrite elem_of_cons. tauto.
Qed.

(** X14: the mapping [create_map] returns has one entry for each
    configured repository, under its short name, and no other; a request
    for any other repository is answered not-found. *)
Theorem create_map_keys fetch m :
  create_map fetch = Ok m →
  (∀ key, is_Some (entries m !! key)
          ↔ key ∈ short_name <$> IMAGES_REPOSITORIES)
  ∧ ∀ i, repository i ∉ short_name <$> IMAGES_REPOSITORIES →
         request_handler m i = HTTPNotFound.
Proof.
  intros H.
  assert (Hk : ∀ key, is_Some (entries m !! key)
                      ↔ key ∈ short_name <$> IMAGES_REPOSITORIES).
  { intros key. rewrite (create_map_from_keys _ _ _ _ key H). simpl.
    rewrite lookup_empty. split; [intros [?|[? ?]]; done|auto]. }
  split; [done|]. intros i Hi. unfold request_handler.
  destruct (entries m !! repository i) eqn:He; [|done].
  destruct Hi. apply Hk. by eexists.
Qed.

(** X15: the lookup [repo_dict[latest_stable]] after the loop over the
    releases never fails: whenever [latest_stable] is set it is a key of
    [repo_dict], whatever the releases and whatever [repo_dict] held
    before the loop. *)
Theorem alias_lookup_never_fails content objs d :
  let '(_, repo_dict, latest_stable) :=
    fold_left add_release content (objs, d, None) in
  (∀ s, latest_stable = Some s → is_Some (repo_dict !! s))
  ∧ ∃ d', add_alias repo_dict latest_stable = Ok d'.
Proof.
  destruct (fold_add_release content objs d None) as (d' & -> & Hd').
  assert (Hkey : ∀ s, first_stable content = Some s → is_Some (d' !! s)).
  { intros s Hs. destruct (first_stable_entry _ _ Hs) as [j Hj].
    rewrite Hd', Hj. by eexists. }
  split; [done|]. unfold add_alias.
  destruct (first_stable content) as [s|]; [|by eexists].
  destruct (Hkey s eq_refl) as [ref ->]. by eexists.
Qed.

Lemma create_map_from_app_eq fetch pre post m m1 :
  create_map_from fetch pre m = Ok m1 →
  create_map_from fetch (pre ++ post) m = create_map_from fetch post m1.
Proof.
  revert m. induction pre as [|r pre IH]; intros m; simpl.
  - by intros [= ->].
  - destruct (process_repository fetch m r) as [m'|]; [|done]. simpl. apply IH.
Qed.

(** X16: a response with status 200 and no Content-Type header is not
    skipped like a failed one: splitting the missing header raises, the
    cycle builds no mapping, the refresh task ends, and [self.mapping]
    keeps the value it had. *)
Theorem missing_content_type_fatal fetch pre r post resp :
  IMAGES_REPOSITORIES = pre ++ r :: post →
  (∀ r', r' ∈ pre →
         ∃ resp', fetch (GITHUB_PATTERN r') = Got resp'
                  ∧ (failed_response resp'
                     ∨ ∃ content, release_list resp' content)) →
  fetch (GITHUB_PATTERN r) = Got resp →
  status resp = 200%Z → content_type resp = None →
  create_map fetch = Raise AttributeError
  ∧ ∀ later self_mapping,
      create_map_loop (fetch :: later) self_mapping
      = (self_mapping, Some AttributeError).
Proof.
  intros Heq Hpre Hf Hs Hct.
  assert (Hr : create_map fetch = Raise AttributeError).
  { unfold create_map. rewrite Heq.
    destruct (create_map_from_total fetch pre empty_mapping Hpre) as [m1 Hm1].
    rewrite (create_map_from_app_eq _ _ _ _ _ Hm1). simpl.
    unfold process_repository. rewrite Hf.
    destruct (setdefault _ _ _) as [d0 dicts]. unfold unparsable.
    rewrite decide_False, Hct by (intros ?; done). done. }
  split; [done|]. intros later self_mapping. simpl. by rewrite Hr.
Qed.




(** X18: a request for the version "droidian-stable-latest" is answered
    as the same request for the slug of the stable candidate. *)
Theorem alias_answers_as_candidate fetch m r resp content s arch vend f :
  NoDup (short_name <$> IMAGES_REPOSITORIES) → r ∈ IMAGES_REPOSITORIES →
  create_map fetch = Ok m →
  fetch (GITHUB_PATTERN r) = Got resp → release_list resp content →
  first_stable content = Some s →
  request_handler m (MatchInfo (short_name r) STABLE_LATEST arch vend f)
  = request_handler m (MatchInfo (short_name r) s arch vend f).
Proof.
  intros Hnd Hr Hm Hf Hl Hfs.
  destruct (slice_list _ _ _ _ _ Hnd Hr Hm Hf Hl)
    as (objs0 & more & d_loop & _ & _ & Hd & He).
  destruct (first_stable_entry _ _ Hfs) as [j Hj].
  rewrite Hfs in He. simpl in He. rewrite Hd, Hj in He. simpl in He.
  unfold request_handler. simpl. rewrite He, lookup_insert_eq, lookup_insert.
  case_decide; [done|]. by rewrite Hd, Hj.
Qed.

(** X21: end to end, the path of a trusted asset resolves to its URL: for
    a release that keeps its entry, the request for the repository's short
    name, the release's slug and the keys computed from the asset's
    filename is redirected to the asset's download URL. *)
Theorem asset_path_resolves fetch m r resp pre rc post apre a apost regex g :
  NoDup (short_name <$> IMAGES_REPOSITORIES) → r ∈ IMAGES_REPOSITORIES →
  create_map fetch = Ok m →
  fetch (GITHUB_PATTERN r) = Got resp →
  release_list resp (pre ++ rc :: post) →
  Forall (λ rc', slug rc' = slug rc → ¬ published rc') post →
  slug rc ≠ STABLE_LATEST →
  assets rc = apre ++ a :: apost →
  regex ∈ PATTERNS → re_match regex (name a) = Some g →
  trusted (browser_download_url a) = true →
  (∀ a' regex' g',
     a' ∈ apost → regex' ∈ PATTERNS → re_match regex' (name a') = Some g' →
     trusted (browser_download_url a') = true →
     ¬ (arch_key g' = arch_key g ∧ vendor_key g' = vendor_key g
        ∧ target_of g' = target_of g)) →
  request_handler m
    (MatchInfo (short_name r) (slug rc) (arch_key g) (vendor_key g)
               (target_of g))
  = HTTPFound (browser_download_url a).
Proof.
  intros Hnd Hr Hm Hf Hl Hpost Hne Ha Hin Hmatch Ht Hlast.
  assert (Hpub : published rc).
  { eapply has_vendor_nonempty, (Release_init_has_vendor rc a); eauto.
    rewrite Ha, elem_of_app, elem_of_cons. auto. }
  destruct (slice_entry fetch m r resp _ Hnd Hr Hm Hf Hl pre rc post
              eq_refl Hpub Hpost Hne) as (d & ref & Hd & Href & Hobj).
  rewrite (request_handler_resolve _ _ (create_map_wf _ _ Hm)).
  unfold resolve. simpl. rewrite Hd. simpl. rewrite Href. simpl.
  rewrite Hobj. simpl.
  by rewrite (last_asset_url rc apre a apost regex g Ha Hin Hmatch Ht Hlast).
Qed.

(** ** The event loop, further *)

(** X23: whenever a request arrives, before, during or after any refresh,
    it is answered with a redirect or with not-found: no exception leaves
    the handler. *)
Theorem requests_answered a i o a' :
  reachable a → step a (Request i o) a' →
  o = HTTPNotFound ∨ ∃ url, o = HTTPFound url.
Proof.
  intros [Hc _]%reachable_invariant Hs. inversion Hs; subst.
  rewrite (request_handler_resolve _ i (complete_wf _ Hc)).
  destruct (resolve (mapping a') i); eauto.
Qed.

End Router.

(** ** The properties on the concrete inputs *)

Import Run.

Local Abbreviation deployed := (built Deployed.IMAGES_REPOSITORIES).

Local Ltac by_compute := vm_compute; reflexivity.

Lemma deployed_distinct :
  NoDup (short_name <$> Deployed.IMAGES_REPOSITORIES).
Proof. apply NoDup_singleton. Qed.

Lemma deployed_configured : REPOSITORY ∈ Deployed.IMAGES_REPOSITORIES.
Proof. apply list_elem_of_here. Qed.

Lemma json_response_list content :
  release_list (json_response content) content.
Proof.
  split; [done|]. split; [|done].
  eexists. split; [done|]. apply (bool_decide_unpack _). by_compute.
Qed.

Lemma error_response_failed : failed_response error_response.
Proof. by left. Qed.

Lemma html_response_failed : failed_response html_response.
Proof.
  right. eexists. split; [done|]. apply (bool_decide_unpack _). by_compute.
Qed.

Lemma deployed_ok content :
  create_map Deployed.IMAGES_REPOSITORIES (answer (json_response content))
  = Ok (deployed (answer (json_response content))).
Proof.
  unfold built.
  destruct (create_map_from_total Deployed.IMAGES_REPOSITORIES
              (answer (json_response content)) Deployed.IMAGES_REPOSITORIES
              empty_mapping) as [m Hm].
  - intros r _. eexists. split; [done|]. right. eexists.
    apply json_response_list.
  - unfold create_map. by rewrite Hm.
Qed.

Example slugify_tag : slugify "Nightly/2021 01.A_b" = "nightly-2021-01-a_b".
Proof. reflexivity. Qed.

Example rootfs_groups :
  re_match DROIDIAN_ROOTFS "droidian-rootfs-api28gsi-arm64_20210101.zip"
  = Some {[ "architecture" := "arm64"; "date" := "20210101" ]}.
Proof. by_compute. Qed.

Example adaptation_groups :
  re_match DROIDIAN_ADAPTATION "droidian-adaptation-fxtec-pro1-x-arm64_7.zip"
  = Some {[ "vendor" := "fxtec"; "model" := "pro1-x";
            "architecture" := "arm64"; "date" := "7" ]}.
Proof. by_compute. Qed.

(** The wildcard before [zip] may take the last digit of the date. *)
Example date_backtracks :
  re_match DROIDIAN_FEATURE "droidian-devtools-armhf_2021zip!"
  = Some {[ "feature" := "devtools"; "architecture" := "armhf";
            "date" := "202" ]}.
Proof. by_compute. Qed.

Example classified_release :
  Release_init Deployed.IMAGES_REPOSITORIES
    (ReleaseContents "stable-1" [rootfs_asset; adaptation_asset; untrusted_asset])
  = {[ "arm64" :=
         {[ "generic" := {[ "rootfs.zip" := browser_download_url rootfs_asset ]};
            "fxtec" := {[ "adaptation-pro1.zip" :=
                            browser_download_url adaptation_asset ]} ]};
       "armhf" := {[ "generic" := ∅ ]} ]}.
Proof. by_compute. Qed.

(** The examples of the specification for the alias, on releases that are
    all published. *)
Example alias_of_three_releases :
  slice (deployed (answer (json_response three_releases))) SHORT
  = {[ "nightly-2" := 0; "stable-1" := 1; "nightly-3" := 2;
       "droidian-stable-latest" := 1 ]}.
Proof. by_compute. Qed.

Example no_alias_among_nightlies :
  slice (deployed (answer (json_response nightly_releases))) SHORT
  = {[ "nightly-1" := 0; "nightly-2" := 1 ]}.
Proof. by_compute. Qed.

(** The entry of a release named like the alias is lost to the alias. *)
Example alias_overwrites_entry :
  slice (deployed (answer (json_response alias_named))) SHORT
  = {[ "stable-1" := 0; "droidian-stable-latest" := 0 ]}
  ∧ length (objects (deployed (answer (json_response alias_named)))) = 2.
Proof. split; by_compute. Qed.

Lemma Release_urls_allowed_witness :
  url_at (Release_init Deployed.IMAGES_REPOSITORIES
            (ReleaseContents "stable-1" [rootfs_asset; untrusted_asset]))
         "arm64" "generic" "rootfs.zip"
  = Some (browser_download_url rootfs_asset)
  ∧ ∃ prefix, prefix ∈ ALLOWED_PREFIXES Deployed.IMAGES_REPOSITORIES
              ∧ Str.startswith (browser_download_url rootfs_asset) prefix = true.
Proof.
  assert (H : url_at (Release_init Deployed.IMAGES_REPOSITORIES
                 (ReleaseContents "stable-1" [rootfs_asset; untrusted_asset]))
                "arm64" "generic" "rootfs.zip"
              = Some (browser_download_url rootfs_asset)) by by_compute.
  split; [exact H|].
  exact (proj1 (Release_urls_allowed Deployed.IMAGES_REPOSITORIES _ _ _ _ _ H)).
Defined.

Lemma request_handler_resolves_witness :
  complete Deployed.IMAGES_REPOSITORIES
           (deployed (answer (json_response three_releases)))
  ∧ request_handler (deployed (answer (json_response three_releases)))
      (MatchInfo SHORT "droidian-stable-latest" "arm64" "fxtec"
                 "adaptation-pro1.zip")
    = HTTPFound (browser_download_url adaptation_asset)
  ∧ request_handler (deployed (answer (json_response three_releases)))
      (MatchInfo SHORT "nightly-2" "arm64" "fxtec" "adaptation-pro1.zip")
    = HTTPNotFound.
Proof.
  assert (Hc : complete Deployed.IMAGES_REPOSITORIES
                 (deployed (answer (json_response three_releases)))).
  { right. eexists. apply deployed_ok. }
  split; [exact Hc|]. split.
  - rewrite (proj1 (request_handler_resolves Deployed.IMAGES_REPOSITORIES
                      _ _ Hc)). by_compute.
  - rewrite (proj1 (request_handler_resolves Deployed.IMAGES_REPOSITORIES
                      _ _ Hc)). by_compute.
Defined.

Lemma failed_fetch_empty_slice_witness :
  failed_response error_response
  ∧ create_map Deployed.IMAGES_REPOSITORIES (answer error_response)
    = Ok (MkMapping [] {[ SHORT := ∅ ]})
  ∧ ∀ i, repository i = SHORT →
         request_handler
           (create_map_loop Deployed.IMAGES_REPOSITORIES
              [answer error_response]
              (deployed (answer (json_response three_releases)))).1 i
         = HTTPNotFound.
Proof.
  assert (Hb : create_map Deployed.IMAGES_REPOSITORIES (answer error_response)
               = Ok (MkMapping [] {[ SHORT := ∅ ]})) by by_compute.
  split; [exact error_response_failed|]. split; [exact Hb|].
  intros i Hi.
  exact (proj1 (proj2 (proj2
    (failed_fetch_empty_slice Deployed.IMAGES_REPOSITORIES
       (answer error_response) _ REPOSITORY error_response
       deployed_distinct deployed_configured eq_refl
       error_response_failed Hb))) _ i Hi).
Defined.



Lemma stable_1_candidate :
  candidate Deployed.IMAGES_REPOSITORIES
    (ReleaseContents "stable-1" [rootfs_asset; adaptation_asset]).
Proof. split; [|by_compute]. intros H. vm_compute in H. discriminate. Qed.

Lemma nightly_3_other_slug :
  Forall (λ rc, slug rc = "stable-1" →
                ¬ published Deployed.IMAGES_REPOSITORIES rc)
         [ReleaseContents "nightly-3" [rootfs_asset]].
Proof.
  apply Forall_singleton. intros H. vm_compute in H. discriminate.
Qed.


Lemma published_release_entry_witness :
  published Deployed.IMAGES_REPOSITORIES
    (ReleaseContents "stable-1" [rootfs_asset; adaptation_asset])
  ∧ ∃ d ref,
      entries (deployed (answer (json_response three_releases))) !! SHORT = Some d
      ∧ d !! "stable-1" = Some ref
      ∧ objects (deployed (answer (json_response three_releases))) !! ref
        = Some (Release_init Deployed.IMAGES_REPOSITORIES
                  (ReleaseContents "stable-1" [rootfs_asset; adaptation_asset])).
Proof.
  split; [exact (proj1 stable_1_candidate)|].
  destruct (published_release_entry Deployed.IMAGES_REPOSITORIES
              (answer (json_response three_releases)) _ REPOSITORY _
              three_releases deployed_distinct deployed_configured
              (deployed_ok three_releases) eq_refl
              (json_response_list three_releases))
    as (d & Hd & Hentry & _).
  destruct (Hentry [ReleaseContents "nightly-2" [rootfs_asset]]
              (ReleaseContents "stable-1" [rootfs_asset; adaptation_asset])
              [ReleaseContents "nightly-3" [rootfs_asset]] eq_refl
              (proj1 stable_1_candidate) nightly_3_other_slug)
    as (ref & Hs & Ho).
  { intros H. vm_compute in H. discriminate. }
  exists d, ref. repeat split; assumption.
Defined.

Lemma alias_shares_reference_witness :
  first_stable Deployed.IMAGES_REPOSITORIES alias_named = Some "stable-1"
  ∧ ∃ d_loop ref,
      d_loop !! "stable-1" = Some ref
      ∧ entries (deployed (answer (json_response alias_named))) !! SHORT
        = Some (<[STABLE_LATEST := ref]> d_loop)
      ∧ ∃ own, d_loop !! STABLE_LATEST = Some own.
Proof.
  assert (Hfs : first_stable Deployed.IMAGES_REPOSITORIES alias_named
                = Some "stable-1") by by_compute.
  split; [exact Hfs|].
  destruct (alias_shares_reference Deployed.IMAGES_REPOSITORIES
              (answer (json_response alias_named)) _ REPOSITORY _
              alias_named deployed_distinct deployed_configured
              (deployed_ok alias_named) eq_refl
              (json_response_list alias_named) "stable-1" Hfs)
    as (objs0 & d_loop & ref & _ & Hs & _ & He & _ & _ & _ & Hown).
  exists d_loop, ref. split; [exact Hs|]. split; [exact He|].
  apply (Hown (ReleaseContents "droidian-stable-latest" [adaptation_asset])).
  - apply list_elem_of_further, list_elem_of_here.
  - by_compute.
  - intros H. vm_compute in H. discriminate.
Defined.

Lemma untrusted_only_untrusted a' regex' g' :
  a' ∈ assets untrusted_release → regex' ∈ PATTERNS →
  re_match regex' (name a') = Some g' →
  trusted Deployed.IMAGES_REPOSITORIES (browser_download_url a') = false.
Proof.
  intros Ha Hr Hm. unfold untrusted_release in Ha. simpl in Ha.
  rewrite !elem_of_cons, elem_of_nil in Ha.
  destruct Ha as [->|[->|[]]]; [by_compute|].
  unfold PATTERNS in Hr. rewrite !elem_of_cons, elem_of_nil in Hr.
  destruct Hr as [->|[->|[->|[]]]]; vm_compute in Hm; discriminate.
Qed.

Lemma untrusted_asset_levels_witness :
  re_match DROIDIAN_FEATURE (name untrusted_asset)
  = Some {[ "feature" := "devtools"; "architecture" := "armhf";
            "date" := "20210101" ]}
  ∧ trusted Deployed.IMAGES_REPOSITORIES
            (browser_download_url untrusted_asset) = false
  ∧ Release_init Deployed.IMAGES_REPOSITORIES untrusted_release
    = {[ "armhf" := {[ "generic" := ∅ ]} ]}
  ∧ (∃ d ref,
       entries (deployed (answer (json_response [untrusted_release]))) !! SHORT
       = Some d
       ∧ d !! "test-build" = Some ref)
  ∧ ∀ i, repository i = SHORT → version i = "test-build" →
         request_handler (deployed (answer (json_response [untrusted_release]))) i
         = HTTPNotFound.
Proof.
  assert (Hm : re_match DROIDIAN_FEATURE (name untrusted_asset)
               = Some {[ "feature" := "devtools"; "architecture" := "armhf";
                         "date" := "20210101" ]}) by by_compute.
  split; [exact Hm|]. split; [by_compute|]. split; [by_compute|].
  destruct (untrusted_asset_levels Deployed.IMAGES_REPOSITORIES
              untrusted_release untrusted_asset DROIDIAN_FEATURE _
              (list_elem_of_here _ _)
              (list_elem_of_further _ _ _
                 (list_elem_of_further _ _ _ (list_elem_of_here _ _)))
              Hm untrusted_only_untrusted)
    as (_ & _ & _ & _ & _ & _ & Hfinal).
  destruct (Hfinal (answer (json_response [untrusted_release])) _ REPOSITORY
              _ [] [] deployed_distinct deployed_configured
              (deployed_ok [untrusted_release]) eq_refl
              (json_response_list [untrusted_release]) (Forall_nil_2 _))
    as [(d & ref & Hd & Hs & _) Hi].
  { intros H. vm_compute in H. discriminate. }
  split; [by exists d, ref|]. exact Hi.
Defined.

Lemma always_answered :
  ∀ fetch,
    fetch ∈ [answer (json_response three_releases); answer error_response;
             answer html_response] →
    answers Deployed.IMAGES_REPOSITORIES fetch.
Proof.
  intros fetch Hin r _. rewrite !elem_of_cons, elem_of_nil in Hin.
  destruct Hin as [->|[->|[->|[]]]]; eexists; (split; [reflexivity|]).
  - right. eexists. apply json_response_list.
  - left. apply error_response_failed.
  - left. apply html_response_failed.
Qed.

Lemma loop_survives_failed_responses_witness :
  create_map_loop Deployed.IMAGES_REPOSITORIES
    [answer (json_response three_releases); answer error_response;
     answer html_response] empty_mapping
  = (MkMapping [] {[ SHORT := ∅ ]}, None).
Proof.
  destruct (loop_survives_failed_responses Deployed.IMAGES_REPOSITORIES
              [answer (json_response three_releases); answer error_response;
               answer html_response] empty_mapping always_answered)
    as [(m & Hloop & _ & Hlast) _].
  rewrite Hloop. f_equal.
  assert (H : create_map Deployed.IMAGES_REPOSITORIES (answer html_response)
              = Ok (MkMapping [] {[ SHORT := ∅ ]})) by by_compute.
  specialize (Hlast _ eq_refl). rewrite H in Hlast. by injection Hlast.
Defined.

Lemma request_sees_one_snapshot_witness :
  reachable Deployed.IMAGES_REPOSITORIES
    (App empty_mapping
         (Fetching (answer (json_response three_releases)) []
                   (deployed (answer (json_response three_releases)))))
  ∧ ∀ i o a',
      step Deployed.IMAGES_REPOSITORIES
        (App empty_mapping
             (Fetching (answer (json_response three_releases)) []
                       (deployed (answer (json_response three_releases)))))
        (Request i o) a' →
      o = HTTPNotFound.
Proof.
  assert (Hr : reachable Deployed.IMAGES_REPOSITORIES
    (App empty_mapping
         (Fetching (answer (json_response three_releases)) []
                   (deployed (answer (json_response three_releases)))))).
  { eapply reachable_step; [apply (reachable_start _ (answer (json_response three_releases)))|].
    unfold start. apply step_fetch.
    pose proof (deployed_ok three_releases) as Hb. unfold create_map in Hb.
    simpl in Hb. destruct (process_repository _ _ _ _) as [m|]; [|done].
    simpl in Hb. by injection Hb as ->. }
  split; [exact Hr|]. intros i o a' Hstep.
  destruct (request_sees_one_snapshot Deployed.IMAGES_REPOSITORIES _ Hr)
    as (_ & Hreq & _).
  destruct (Hreq i o a' Hstep) as [_ ->]. reflexivity.
Defined.

(** ** Where the specification and the program differ *)

(** C4: the program does not do what the claim says on a response with
    status 200 and no Content-Type header.  Its content type is not JSON,
    yet the repository is not skipped: [create_map] raises, no mapping is
    built, the refresh task ends, and the data of the earlier cycle is
    still served under the repository. *)
Lemma missing_header_serves_old_data :
  status headerless_response = 200%Z
  ∧ content_type headerless_response = None
  ∧ create_map Deployed.IMAGES_REPOSITORIES (answer headerless_response)
    = Raise AttributeError
  ∧ create_map_loop Deployed.IMAGES_REPOSITORIES
      [answer headerless_response]
      (deployed (answer (json_response three_releases)))
    = (deployed (answer (json_response three_releases)), Some AttributeError)
  ∧ request_handler
      (create_map_loop Deployed.IMAGES_REPOSITORIES
         [answer headerless_response]
         (deployed (answer (json_response three_releases)))).1
      (MatchInfo SHORT "stable-1" "arm64" "generic" "rootfs.zip")
    = HTTPFound (browser_download_url rootfs_asset).
Proof. repeat split; by_compute. Qed.


(** C6 as stated fails: a release with an empty [Release] has no entry. *)
Lemma empty_release_has_no_entry :
  create_map Deployed.IMAGES_REPOSITORIES (answer (json_response empty_first))
  = Ok (deployed (answer (json_response empty_first)))
  ∧ entries (deployed (answer (json_response empty_first))) !! SHORT
    = Some (slice (deployed (answer (json_response empty_first))) SHORT)
  ∧ ¬ entries_as_specified Deployed.IMAGES_REPOSITORIES empty_first
        (objects (deployed (answer (json_response empty_first))))
        (slice (deployed (answer (json_response empty_first))) SHORT).
Proof.
  split; [apply deployed_ok|]. split; [by_compute|].
  intros H.
  destruct (H (ReleaseContents "stable-2" [readme_asset]))
    as (ref & Href & _); [apply list_elem_of_here|].
  vm_compute in Href. discriminate.
Qed.

(** C7 as stated fails: a fetch that raises ends the refresh task, and the
    later cycles do not happen. *)
Lemma network_error_ends_loop :
  create_map_loop Deployed.IMAGES_REPOSITORIES
    [no_answer; answer (json_response three_releases)] empty_mapping
  = (empty_mapping, Some ClientError)
  ∧ ¬ never_fatal Deployed.IMAGES_REPOSITORIES.
Proof.
  split; [by_compute|]. intros H.
  specialize (H [no_answer] empty_mapping). vm_compute in H. discriminate.
Qed.

(** ** Further properties on the concrete inputs *)

Lemma nightly_any_case_witness :
  Str.contains "nightly" (slugify "NIGHTLY-2021") = true
  ∧ (add_release Deployed.IMAGES_REPOSITORIES ([], ∅, None)
       (ReleaseContents "NIGHTLY-2021" [rootfs_asset])).2 = None.
Proof.
  exact (nightly_any_case Deployed.IMAGES_REPOSITORIES "" "NIGHTLY" "-2021"
           (ReleaseContents "NIGHTLY-2021" [rootfs_asset]) [] ∅
           eq_refl eq_refl).
Defined.

Lemma short_name_last_segment_witness :
  short_name REPOSITORY = SHORT.
Proof.
  exact (short_name_last_segment "droidian-images" "rootfs-api28gsi-all"
           eq_refl).
Defined.

Lemma rootfs_asset_match :
  re_match DROIDIAN_ROOTFS (name rootfs_asset)
  = Some {[ "architecture" := "arm64"; "date" := "20210101" ]}.
Proof. by_compute. Qed.

Lemma rootfs_pattern : DROIDIAN_ROOTFS ∈ PATTERNS.
Proof. apply list_elem_of_here. Qed.

Lemma rootfs_asset_trusted :
  trusted Deployed.IMAGES_REPOSITORIES (browser_download_url rootfs_asset)
  = true.
Proof. by_compute. Qed.

Lemma Release_urls_origin_witness :
  ∃ a regex g,
    a ∈ [rootfs_asset; untrusted_asset] ∧ regex ∈ PATTERNS
    ∧ re_match regex (name a) = Some g
    ∧ "arm64" = arch_key g ∧ "generic" = vendor_key g
    ∧ "rootfs.zip" = target_of g
    ∧ browser_download_url rootfs_asset = browser_download_url a
    ∧ trusted Deployed.IMAGES_REPOSITORIES
              (browser_download_url rootfs_asset) = true.
Proof.
  apply (Release_urls_origin Deployed.IMAGES_REPOSITORIES
           (ReleaseContents "stable-1" [rootfs_asset; untrusted_asset])
           "arm64" "generic" "rootfs.zip").
  by_compute.
Defined.

Lemma last_asset_wins_witness :
  url_at (Release_init Deployed.IMAGES_REPOSITORIES
            (ReleaseContents "stable-1" [older_rootfs_asset; rootfs_asset]))
         "arm64" "generic" "rootfs.zip"
  = Some (browser_download_url rootfs_asset).
Proof.
  apply (last_asset_wins Deployed.IMAGES_REPOSITORIES
           (ReleaseContents "stable-1" [older_rootfs_asset; rootfs_asset])
           [older_rootfs_asset] rootfs_asset [] DROIDIAN_ROOTFS
           {[ "architecture" := "arm64"; "date" := "20210101" ]}
           eq_refl rootfs_pattern rootfs_asset_match rootfs_asset_trusted).
  intros a' regex' g' Ha'. by apply elem_of_nil in Ha'.
Defined.

Lemma Release_levels_witness :
  Release_init Deployed.IMAGES_REPOSITORIES
    (ReleaseContents "stable-1" [rootfs_asset; untrusted_asset]) !! "arm64"
  = Some {[ "generic" :=
              {[ "rootfs.zip" := browser_download_url rootfs_asset ]} ]}
  ∧ Str.all_chars (in_set lower_alnum) "arm64" = true.
Proof.
  assert (H : Release_init Deployed.IMAGES_REPOSITORIES
                (ReleaseContents "stable-1" [rootfs_asset; untrusted_asset])
              !! "arm64"
              = Some {[ "generic" :=
                   {[ "rootfs.zip" := browser_download_url rootfs_asset ]} ]})
    by by_compute.
  split; [exact H|].
  exact (proj1 (proj2 (Release_levels Deployed.IMAGES_REPOSITORIES _ _ _ H))).
Defined.

Lemma three_releases_complete :
  complete Deployed.IMAGES_REPOSITORIES
           (deployed (answer (json_response three_releases))).
Proof. right. eexists. apply deployed_ok. Qed.

Lemma location_has_allowed_prefix_witness :
  request_handler (deployed (answer (json_response three_releases)))
    (MatchInfo SHORT "stable-1" "arm64" "generic" "rootfs.zip")
  = HTTPFound (browser_download_url rootfs_asset)
  ∧ ∃ repo rest,
      repo ∈ Deployed.IMAGES_REPOSITORIES
      ∧ browser_download_url rootfs_asset
        = "https://github.com/" +:+ repo +:+ "/" +:+ rest.
Proof.
  assert (H : request_handler (deployed (answer (json_response three_releases)))
                (MatchInfo SHORT "stable-1" "arm64" "generic" "rootfs.zip")
              = HTTPFound (browser_download_url rootfs_asset)) by by_compute.
  split; [exact H|].
  exact (location_has_allowed_prefix Deployed.IMAGES_REPOSITORIES _ _ _
           three_releases_complete H).
Defined.

Lemma create_map_keys_witness :
  is_Some (entries (deployed (answer error_response)) !! SHORT)
  ∧ ∀ i, repository i ∉ short_name <$> Deployed.IMAGES_REPOSITORIES →
         request_handler (deployed (answer (json_response three_releases))) i
         = HTTPNotFound.
Proof.
  split.
  - apply (proj1 (create_map_keys Deployed.IMAGES_REPOSITORIES
                    (answer error_response) _ eq_refl) SHORT).
    apply list_elem_of_here.
  - exact (proj2 (create_map_keys Deployed.IMAGES_REPOSITORIES _ _
                    (deployed_ok three_releases))).
Defined.

Lemma missing_content_type_fatal_witness :
  create_map_loop Deployed.IMAGES_REPOSITORIES
    [answer headerless_response; answer (json_response three_releases)]
    (deployed (answer (json_response nightly_releases)))
  = (deployed (answer (json_response nightly_releases)), Some AttributeError).
Proof.
  apply (missing_content_type_fatal Deployed.IMAGES_REPOSITORIES
           (answer headerless_response) [] REPOSITORY [] headerless_response
           eq_refl).
  - intros r' Hr'. by apply elem_of_nil in Hr'.
  - reflexivity.
  - reflexivity.
  - reflexivity.
Defined.


Lemma alias_answers_as_candidate_witness :
  request_handler (deployed (answer (json_response three_releases)))
    (MatchInfo (short_name REPOSITORY) STABLE_LATEST "arm64" "generic"
               "rootfs.zip")
  = request_handler (deployed (answer (json_response three_releases)))
      (MatchInfo (short_name REPOSITORY) "stable-1" "arm64" "generic"
                 "rootfs.zip").
Proof.
  apply (alias_answers_as_candidate Deployed.IMAGES_REPOSITORIES
           (answer (json_response three_releases)) _ REPOSITORY _
           three_releases "stable-1" "arm64" "generic" "rootfs.zip"
           deployed_distinct deployed_configured (deployed_ok three_releases)
           eq_refl (json_response_list three_releases)).
  by_compute.
Defined.

Lemma adaptation_other_keys a' regex' g' :
  a' ∈ [adaptation_asset] → regex' ∈ PATTERNS →
  re_match regex' (name a') = Some g' →
  trusted Deployed.IMAGES_REPOSITORIES (browser_download_url a') = true →
  ¬ (arch_key g' = arch_key {[ "architecture" := "arm64"; "date" := "20210101" ]}
     ∧ vendor_key g'
       = vendor_key {[ "architecture" := "arm64"; "date" := "20210101" ]}
     ∧ target_of g'
       = target_of {[ "architecture" := "arm64"; "date" := "20210101" ]}).
Proof.
  intros Ha Hr Hm _. apply list_elem_of_singleton in Ha as ->.
  unfold PATTERNS in Hr. rewrite !elem_of_cons, elem_of_nil in Hr.
  destruct Hr as [->|[->|[->|[]]]]; vm_compute in Hm; try discriminate.
  injection Hm as <-. intros (_ & Hv & _). vm_compute in Hv. discriminate.
Qed.

Lemma asset_path_resolves_witness :
  MatchInfo (short_name REPOSITORY)
    (slug (ReleaseContents "stable-1" [rootfs_asset; adaptation_asset]))
    (arch_key {[ "architecture" := "arm64"; "date" := "20210101" ]})
    (vendor_key {[ "architecture" := "arm64"; "date" := "20210101" ]})
    (target_of {[ "architecture" := "arm64"; "date" := "20210101" ]})
  = MatchInfo SHORT "stable-1" "arm64" "generic" "rootfs.zip"
  ∧ request_handler (deployed (answer (json_response three_releases)))
      (MatchInfo (short_name REPOSITORY)
         (slug (ReleaseContents "stable-1" [rootfs_asset; adaptation_asset]))
         (arch_key {[ "architecture" := "arm64"; "date" := "20210101" ]})
         (vendor_key {[ "architecture" := "arm64"; "date" := "20210101" ]})
         (target_of {[ "architecture" := "arm64"; "date" := "20210101" ]}))
    = HTTPFound (browser_download_url rootfs_asset).
Proof.
  split; [by_compute|].
  apply (asset_path_resolves Deployed.IMAGES_REPOSITORIES
           (answer (json_response three_releases)) _ REPOSITORY _
           [ReleaseContents "nightly-2" [rootfs_asset]]
           (ReleaseContents "stable-1" [rootfs_asset; adaptation_asset])
           [ReleaseContents "nightly-3" [rootfs_asset]]
           [] rootfs_asset [adaptation_asset] DROIDIAN_ROOTFS
           {[ "architecture" := "arm64"; "date" := "20210101" ]}
           deployed_distinct deployed_configured (deployed_ok three_releases)
           eq_refl (json_response_list three_releases) nightly_3_other_slug).
  - intros H. vm_compute in H. discriminate.
  - reflexivity.
  - exact rootfs_pattern.
  - exact rootfs_asset_match.
  - exact rootfs_asset_trusted.
  - exact adaptation_other_keys.
Defined.

Lemma adaptation_asset_match :
  re_match DROIDIAN_ADAPTATION (name adaptation_asset)
  = Some {[ "vendor" := "fxtec"; "model" := "pro1";
            "architecture" := "arm64"; "date" := "20210101" ]}.
Proof. by_compute. Qed.

Lemma pattern_keys_witness :
  vendor_key {[ "vendor" := "fxtec"; "model" := "pro1";
                "architecture" := "arm64"; "date" := "20210101" ]} = "fxtec"
  ∧ ∃ vend model arch date c rest,
      name adaptation_asset
      = "droidian-adaptation-" +:+ vend +:+ "-" +:+ model +:+ "-"
        +:+ arch +:+ "_" +:+ date +:+ String c ("zip" +:+ rest)
      ∧ vendor_key {[ "vendor" := "fxtec"; "model" := "pro1";
                      "architecture" := "arm64"; "date" := "20210101" ]}
        = vend
      ∧ target_of {[ "vendor" := "fxtec"; "model" := "pro1";
                     "architecture" := "arm64"; "date" := "20210101" ]}
        = "adaptation-" +:+ model +:+ ".zip".
Proof.
  split; [by_compute|].
  destruct (pattern_keys DROIDIAN_ADAPTATION (name adaptation_asset) _
              (list_elem_of_further _ _ _ (list_elem_of_here _ _))
              adaptation_asset_match)
    as [(He & _)|[(_ & vend & model & arch & date & c & rest & Hf & H)|(He & _)]].
  - discriminate He.
  - exists vend, model, arch, date, c, rest.
    destruct H as (_ & _ & _ & _ & _ & _ & _ & _ & _ & _ & Hv & Ht).
    by repeat split.
  - discriminate He.
Defined.

Lemma requests_answered_witness :
  reachable Deployed.IMAGES_REPOSITORIES
            (start Deployed.IMAGES_REPOSITORIES no_answer)
  ∧ ∀ i o a',
      step Deployed.IMAGES_REPOSITORIES
           (start Deployed.IMAGES_REPOSITORIES no_answer) (Request i o) a' →
      o = HTTPNotFound ∨ ∃ url, o = HTTPFound url.
Proof.
  split; [apply reachable_start|]. intros i o a' Hs.
  exact (requests_answered Deployed.IMAGES_REPOSITORIES _ i o a'
           (reachable_start _ no_answer) Hs).
Defined.
